(** * Campus assistant chatbot: path router, intent classifier, dialog controller

    A shallow embedding of [chatbot_app.py].  Python values are modelled as
    follows.

    - [str] is [string]; text is treated as a sequence of ASCII bytes, so
      [str.lower], [str.upper], [str.strip] and [str.split] act on ASCII
      letters and ASCII white space.
    - [int] is [Z].  The floating point similarity scores of the classifier
      are only ever compared, never computed with, and are modelled by their
      exact rational values in [Q].
    - A [dict] is an insertion ordered association list ([dict V]); the fixed
      key set of a session dictionary is a record with optional fields.
    - [set] is [gset string]; the global [user_sessions] is a
      [gmap string session].
    - The request handlers run in a small state and exception monad [M] over
      the shared session store.
    - The external collaborators (spaCy, Neo4j, scikit-learn) are the
      variables of the section [Chatbot]: what the tokenizer and entity
      recognizer return for a text, the rows of the graph and directory
      queries, and the similarity of two texts.  The database is taken to be
      reachable, and its rows to hold integer weights and string names and
      instructions. *)

From Stdlib Require Import QArith Ascii.
From stdpp Require Import gmap strings list pretty.

Open Scope string_scope.
Open Scope Z_scope.
Open Scope list_scope.

(** ** Python primitives *)

Module Py.

(** [l[i]] for a Python list: negative indices count from the end, anything
    out of range raises [IndexError] (here [None]). *)
Definition index {A} (l : list A) (i : Z) : option A :=
  let n := Z.of_nat (length l) in
  if decide (0 ≤ i) then l !! Z.to_nat i
  else if decide (- n ≤ i) then l !! Z.to_nat (n + i)
  else None.

(** [l.index(x)]: position of the first occurrence. *)
Fixpoint find_index (x : string) (l : list string) : option nat :=
  match l with
  | [] => None
  | y :: l' => if decide (x = y) then Some 0%nat else S <$> find_index x l'
  end.

(** [x in l] for a list of strings. *)
Definition mem (x : string) (l : list string) : bool := bool_decide (x ∈ l).

Definition is_upper (c : ascii) : bool :=
  let n := Ascii.nat_of_ascii c in (65 <=? n)%nat && (n <=? 90)%nat.
Definition is_lower (c : ascii) : bool :=
  let n := Ascii.nat_of_ascii c in (97 <=? n)%nat && (n <=? 122)%nat.
Definition is_digit (c : ascii) : bool :=
  let n := Ascii.nat_of_ascii c in (48 <=? n)%nat && (n <=? 57)%nat.
(** Space, tab, line feed, vertical tab, form feed, carriage return and the
    four ASCII separators: the ASCII characters with [str.isspace]. *)
Definition is_space (c : ascii) : bool :=
  let n := Ascii.nat_of_ascii c in
  (n =? 32)%nat || ((9 <=? n)%nat && (n <=? 13)%nat)
  || ((28 <=? n)%nat && (n <=? 31)%nat).

Definition lower_char (c : ascii) : ascii :=
  if is_upper c then Ascii.ascii_of_nat (Ascii.nat_of_ascii c + 32) else c.
Definition upper_char (c : ascii) : ascii :=
  if is_lower c then Ascii.ascii_of_nat (Ascii.nat_of_ascii c - 32) else c.

Fixpoint map_string (f : ascii → ascii) (s : string) : string :=
  match s with
  | EmptyString => EmptyString
  | String c s' => String (f c) (map_string f s')
  end.

(** [s.lower()] and [s.upper()]. *)
Definition lower : string → string := map_string lower_char.
Definition upper : string → string := map_string upper_char.

(** [needle in hay] for strings: substring test. *)
Fixpoint contains (needle hay : string) : bool :=
  String.prefix needle hay
  || match hay with
     | EmptyString => false
     | String _ hay' => contains needle hay'
     end.

Fixpoint lstrip (s : string) : string :=
  match s with
  | String c s' => if is_space c then lstrip s' else s
  | EmptyString => EmptyString
  end.

Fixpoint rstrip (s : string) : string :=
  match s with
  | EmptyString => EmptyString
  | String c s' =>
      match rstrip s' with
      | EmptyString => if is_space c then EmptyString else String c EmptyString
      | r => String c r
      end
  end.

(** [s.strip()]. *)
Definition strip (s : string) : string := rstrip (lstrip s).

(** [s.split()]: the maximal runs of non-space characters.  [cur] holds the
    run being read, reversed. *)
Fixpoint split_aux (cur : list ascii) (s : string) : list string :=
  let flush (rest : list string) :=
    match cur with
    | [] => rest
    | _ => String.string_of_list_ascii (rev cur) :: rest
    end in
  match s with
  | EmptyString => flush []
  | String c s' =>
      if is_space c then flush (split_aux [] s') else split_aux (c :: cur) s'
  end.
Definition split (s : string) : list string := split_aux [] s.

(** Digits of an [int] literal: decimal digits, single underscores allowed
    between digits.  [after_digit] tells whether the previous character was
    a digit; [acc] is the value read so far. *)
Fixpoint digits (after_digit : bool) (acc : Z) (s : string) : option Z :=
  match s with
  | EmptyString => if after_digit then Some acc else None
  | String c s' =>
      if is_digit c
      then digits true (10 * acc + Z.of_nat (Ascii.nat_of_ascii c - 48)) s'
      else if decide (c = "_"%char)
      then (if after_digit then digits false acc s' else None)
      else None
  end.

(** [int(s)]: surrounding white space, an optional sign, then digits;
    [None] stands for [ValueError]. *)
Definition int (s : string) : option Z :=
  match strip s with
  | String "-" s' => Z.opp <$> digits false 0 s'
  | String "+" s' => digits false 0 s'
  | s' => digits false 0 s'
  end.

(** Truthiness of an optional string ([None] and the empty string are false). *)
Definition truthy (o : option string) : bool :=
  match o with
  | Some (String _ _) => true
  | _ => false
  end.

End Py.

(** ** Insertion ordered dictionaries *)

Definition dict (V : Type) : Type := list (string * V).

Fixpoint dict_get {V} (k : string) (d : dict V) : option V :=
  match d with
  | [] => None
  | (k', v) :: d' => if decide (k = k') then Some v else dict_get k d'
  end.

Definition dict_mem {V} (k : string) (d : dict V) : bool :=
  match dict_get k d with Some _ => true | None => false end.

(** [d[k] = v]: overwrite in place, or append a new key at the end. *)
Fixpoint dict_set {V} (k : string) (v : V) (d : dict V) : dict V :=
  match d with
  | [] => [(k, v)]
  | (k', v') :: d' =>
      if decide (k = k') then (k, v) :: d' else (k', v') :: dict_set k v d'
  end.

(** ** Graph model *)

(** The property dictionary of an edge; a missing key is [None]. *)
Record edge_props := EdgeProps {
  weight : option Z;
  direction : option string
}.

Definition graph : Type := dict (dict edge_props).

(** [properties.get('weight', 1)] and
    [properties.get('direction', 'move forward')]. *)
Definition weight_of (properties : edge_props) : Z :=
  default 1 (weight properties).
Definition direction_of (properties : edge_props) : string :=
  default "move forward" (direction properties).

(** [graph.get(node, {})]. *)
Definition neighbors (g : graph) (node : string) : dict edge_props :=
  default [] (dict_get node g).

(** ** Priority queue

    [heapq] keeps a binary heap in a list; all the router observes is that
    [heappop] removes and returns the smallest item.  Items are tuples
    [(cost, node, path, directions)], ordered as Python orders tuples:
    lexicographically, with strings and lists compared lexicographically
    too.  That order is total and two items that compare equal are the same
    value, so the queue is modelled as the list of its items and [heappop]
    as extraction of the least one. *)

Definition entry : Type := Z * string * list string * list string.

Definition entry_cost (e : entry) : Z := e.1.1.1.
Definition entry_node (e : entry) : string := e.1.1.2.

Fixpoint list_compare (l1 l2 : list string) : comparison :=
  match l1, l2 with
  | [], [] => Eq
  | [], _ :: _ => Lt
  | _ :: _, [] => Gt
  | x :: l1', y :: l2' =>
      match String.compare x y with
      | Eq => list_compare l1' l2'
      | c => c
      end
  end.

Definition entry_compare (a b : entry) : comparison :=
  let '(c1, n1, p1, d1) := a in
  let '(c2, n2, p2, d2) := b in
  match Z.compare c1 c2 with
  | Eq =>
      match String.compare n1 n2 with
      | Eq =>
          match list_compare p1 p2 with
          | Eq => list_compare d1 d2
          | c => c
          end
      | c => c
      end
  | c => c
  end.

Definition entry_ltb (a b : entry) : bool :=
  match entry_compare a b with Lt => true | _ => false end.

Definition heappush (queue : list entry) (item : entry) : list entry :=
  queue ++ [item].

(** [extract_min x q]: the least item of [x :: q] and the other items. *)
Fixpoint extract_min (x : entry) (q : list entry) : entry * list entry :=
  match q with
  | [] => (x, [])
  | y :: q' =>
      if entry_ltb y x
      then let '(m, r) := extract_min y q' in (m, x :: r)
      else let '(m, r) := extract_min x q' in (m, y :: r)
  end.

Definition heappop (queue : list entry) : option (entry * list entry) :=
  match queue with
  | [] => None
  | x :: q => Some (extract_min x q)
  end.

(** ** Path router *)

(** The cost of a route: a number, or [float("inf")]. *)
Inductive cost := Finite (c : Z) | Infinity.

Definition route : Type := cost * list string * list string.

(** The [for] loop over the outgoing edges of a settled node. *)
Definition push_neighbors (seen : gset string) (cost : Z) (path directions : list string)
    (edges : dict edge_props) (queue : list entry) : list entry :=
  fold_left
    (λ queue '(neighbor, properties),
       if decide (neighbor ∈ seen) then queue
       else
         let new_cost := cost + weight_of properties in
         let new_directions := directions ++ [direction_of properties] in
         heappush queue (new_cost, neighbor, path, new_directions))
    edges queue.

(** The [while queue] loop; [None] when [fuel] iterations do not suffice. *)
Fixpoint dijkstra_loop (fuel : nat) (g : graph) (end_ : string)
    (seen : gset string) (queue : list entry) : option route :=
  match fuel with
  | O => None
  | S fuel =>
      match heappop queue with
      | None => Some (Infinity, [], [])
      | Some ((cost, node, path, directions), queue) =>
          if decide (node ∈ seen) then dijkstra_loop fuel g end_ seen queue
          else
            let seen := {[node]} ∪ seen in
            let path := path ++ [node] in
            if decide (node = end_) then Some (Finite cost, path, directions)
            else
              dijkstra_loop fuel g end_ seen
                (push_neighbors seen cost path directions (neighbors g node) queue)
      end
  end.

(** Number of edges of the graph: every iteration either discards a queue
    item or settles a new node, so [edge_count g + 2] iterations suffice
    (lemma [dijkstra_total]). *)
Definition edge_count (g : graph) : nat :=
  sum_list (map (λ kv, length kv.2) g).

Definition dijkstra (g : graph) (start end_ : string) : option route :=
  dijkstra_loop (edge_count g + 2) g end_ ∅ [(0, start, [], [])].

Definition two_edge_graph : graph :=
  [ ("A", [("B", EdgeProps (Some 5) (Some "turn left"))]);
    ("B", [("C", EdgeProps (Some 5) (Some "go straight"))]);
    ("C", []) ].

(** ** Intent classifier *)

Definition knowledge_base : dict (list string) :=
  [ ("greeting", ["hello"; "hi"; "hey"; "greetings"; "good morning"; "good afternoon"]);
    ("goodbye", ["bye"; "goodbye"; "see you"; "take care"]);
    ("thanks", ["thanks"; "thank you"; "appreciate it"]);
    ("about", ["who are you"; "what are you"; "what can you do"]);
    ("navigate", ["navigate"; "find"; "go to"; "reach"; "how to get to"; "directions"]);
    ("teacher_info", ["teacher"; "faculty"; "professor"; "details of"; "information on"; "who is"]) ].

(** The literal [0.3]: the value of the nearest binary64 number, which is
    what a similarity score is compared with. *)
Definition threshold : Q := 5404319552844595 # 18014398509481984.

(** [a > b] on scores. *)
Definition Qgtb (a b : Q) : bool := negb (Qle_bool a b).

(** One step of the scan over the example phrases: the running maximum and
    its intent change only on a strictly larger score. *)
Definition scan_phrase (score : string → Q) (intent : string)
    (acc : Q * string) (phrase : string) : Q * string :=
  let '(max_similarity, best_intent) := acc in
  let similarity := score phrase in
  if Qgtb similarity max_similarity then (similarity, intent)
  else (max_similarity, best_intent).

(** ** Sessions and the monad of the request handlers *)

Inductive dialog_state :=
| idle
| navigation_confirm
| teacher_selection
| navigate_to_teacher_confirm.

Record teacher := Teacher {
  firstName : string;
  lastName : string;
  phone : string;
  email : string;
  cabin : string;
  building : string;
  department : string
}.

(** A session dictionary: ["state"] is always present, every other key is
    absent ([None]) until a handler stores it, and is never removed. *)
Record session := Session {
  s_state : dialog_state;
  s_path : option (list string);
  s_directions : option (list string);
  s_current_step : option Z;
  s_teachers : option (list teacher);
  s_teacher_cabin : option string
}.

(** [{"state": "idle"}]. *)
Definition new_session : session := Session idle None None None None None.

Definition set_state (v : dialog_state) (s : session) : session :=
  Session v (s_path s) (s_directions s) (s_current_step s) (s_teachers s)
    (s_teacher_cabin s).
Definition set_path (v : list string) (s : session) : session :=
  Session (s_state s) (Some v) (s_directions s) (s_current_step s) (s_teachers s)
    (s_teacher_cabin s).
Definition set_directions (v : list string) (s : session) : session :=
  Session (s_state s) (s_path s) (Some v) (s_current_step s) (s_teachers s)
    (s_teacher_cabin s).
Definition set_current_step (v : Z) (s : session) : session :=
  Session (s_state s) (s_path s) (s_directions s) (Some v) (s_teachers s)
    (s_teacher_cabin s).
Definition set_teachers (v : list teacher) (s : session) : session :=
  Session (s_state s) (s_path s) (s_directions s) (s_current_step s) (Some v)
    (s_teacher_cabin s).
Definition set_teacher_cabin (v : string) (s : session) : session :=
  Session (s_state s) (s_path s) (s_directions s) (s_current_step s) (s_teachers s)
    (Some v).

(** Exceptions that escape a handler.  [Diverged] marks a router loop that
    ran out of fuel; lemma [dijkstra_total] shows it never happens. *)
Inductive exn := IndexError | KeyError | Diverged.

(** Calls to the classifier and to the external collaborators, recorded
    in the order they are made (ghost state: the program keeps no such log). *)
Inductive call :=
| Classify (text : string)
| Parse (text : string)
| FetchGraph
| QueryDirectory (first_name : string).

(** The global [user_sessions], and the trace of calls made so far. *)
Record world := World {
  user_sessions : gmap string session;
  calls : list call
}.

Inductive result (A : Type) :=
| Ok (a : A)
| Raise (e : exn).
Arguments Ok {A} a.
Arguments Raise {A} e.

Definition M (A : Type) : Type := world → result A * world.

#[global] Instance M_ret : MRet M := λ A a w, (Ok a, w).
#[global] Instance M_bind : MBind M := λ A B f m w,
  match m w with
  | (Ok a, w') => f a w'
  | (Raise e, w') => (Raise e, w')
  end.

Definition raise {A} (e : exn) : M A := λ w, (Raise e, w).

Definition or_raise {A} (e : exn) (o : option A) : M A :=
  match o with Some a => mret a | None => raise e end.

Definition record_call (c : call) : M unit :=
  λ w, (Ok tt, World (user_sessions w) (calls w ++ [c])).

(** [user_sessions[user_id]] followed by a read of the session. *)
Definition session_read {A} (user_id : string) (f : session → A) : M A :=
  λ w, match user_sessions w !! user_id with
       | Some s => (Ok (f s), w)
       | None => (Raise KeyError, w)
       end.

(** An assignment to a key of the dictionary [user_sessions[user_id]]: the
    session object is shared, so the store sees the update. *)
Definition session_write (user_id : string) (f : session → session) : M unit :=
  λ w, match user_sessions w !! user_id with
       | Some s => (Ok tt, World (<[user_id := f s]> (user_sessions w)) (calls w))
       | None => (Raise KeyError, w)
       end.

(** [if user_id not in user_sessions: user_sessions[user_id] = {"state": "idle"}]. *)
Definition ensure_session (user_id : string) : M unit :=
  λ w, match user_sessions w !! user_id with
       | Some _ => (Ok tt, w)
       | None => (Ok tt, World (<[user_id := new_session]> (user_sessions w)) (calls w))
       end.

(** ** Dialog controller *)

(** What spaCy returns for a text: the token texts, and the named entities
    with their labels. *)
Record entity := Entity { text : string; label_ : string }.
Record doc := Doc { tokens : list string; ents : list entity }.

(** A row of the relationship query. *)
Record relationship := Relationship {
  source : string;
  target : string;
  rel_weight : Z;
  rel_direction : string
}.

(** The request body: [data.get("user_id", "default_user")] and
    [data.get("message", "")] read the two optional keys. *)
Record request := Request {
  req_user_id : option string;
  req_message : option string
}.

Definition nl : string := String (ascii_of_nat 10) EmptyString.

(** The reply that shows a directory entry and offers navigation. *)
Definition teacher_details (t : teacher) : string :=
  "Here are the details for " +:+ firstName t +:+ " " +:+ lastName t +:+ ":" +:+ nl +:+
  "Email: " +:+ email t +:+ nl +:+
  "Phone: " +:+ phone t +:+ nl +:+
  "Cabin: " +:+ cabin t +:+ " in " +:+ building t +:+ nl +:+
  "Department: " +:+ department t +:+ "." +:+ nl +:+ nl +:+
  "Would you like me to navigate you to their cabin?".

(** The numbered list of candidates, [i] being the index of the first. *)
Fixpoint teacher_lines (i : nat) (ts : list teacher) : string :=
  match ts with
  | [] => EmptyString
  | t :: ts' =>
      pretty (i + 1)%nat +:+ ". " +:+ firstName t +:+ " " +:+ lastName t +:+
      " (" +:+ department t +:+ ")" +:+ nl +:+ teacher_lines (S i) ts'
  end.

Definition is_location_label (l : string) : bool :=
  Py.mem l ["GPE"; "LOC"; "ORG"; "FAC"].

(** The [try] block of [handle_navigation]: the token after ["from"] and
    the token after ["to"], or the first two location entities.  An
    [IndexError] leaves the variables as they were when it was raised. *)
Definition endpoints (text_tokens locations : list string)
    : option string * option string :=
  if Py.mem "from" text_tokens && Py.mem "to" text_tokens then
    match Py.find_index "from" text_tokens, Py.find_index "to" text_tokens with
    | Some from_index, Some to_index =>
        match Py.index text_tokens (Z.of_nat from_index + 1) with
        | None => (None, None)
        | Some t1 =>
            match Py.index text_tokens (Z.of_nat to_index + 1) with
            | None => (Some (Py.upper t1), None)
            | Some t2 => (Some (Py.upper t1), Some (Py.upper t2))
            end
        end
    | _, _ => (None, None)
    end
  else if decide (2 ≤ length locations)%nat then (locations !! 0%nat, locations !! 1%nat)
  else (None, None).

(** The upper-cased texts of the entities with a location-like label. *)
Definition location_entities (d : doc) : list string :=
  map Py.upper (map text (filter (λ e, is_location_label (label_ e) = true) (ents d))).

Definition affirms_progress (message : string) : bool :=
  Py.contains "yes" (Py.lower message) || Py.contains "ok" (Py.lower message)
  || Py.contains "reached" (Py.lower message).

Section Chatbot.

(** The similarity of two texts: the cosine of their TF-IDF vectors. *)
Variable cosine_similarity : string → string → Q.
(** The spaCy pipeline. *)
Variable nlp : string → doc.
(** The rows of the two graph queries. *)
Variable location_names : list string.
Variable connections : list relationship.
(** The directory query, by first name. *)
Variable find_teacher_by_name : string → list teacher.

Definition get_intent (user_input : string) : string :=
  let score := cosine_similarity (Py.lower user_input) in
  let '(max_similarity, best_intent) :=
    fold_left
      (λ acc '(intent, phrases), fold_left (scan_phrase score intent) phrases acc)
      knowledge_base (0%Q, "unknown") in
  if Qgtb max_similarity threshold then best_intent else "unknown".

Definition build_graph_from_neo4j : graph :=
  let graph := fold_left (λ graph name, dict_set name [] graph) location_names [] in
  fold_left
    (λ graph rel,
       let graph :=
         if dict_mem (source rel) graph then graph
         else dict_set (source rel) [] graph in
       dict_set (source rel)
         (dict_set (target rel)
            (EdgeProps (Some (rel_weight rel)) (Some (rel_direction rel)))
            (neighbors graph (source rel)))
         graph)
    connections graph.

Definition handle_navigation (d : doc) (user_id : string) : M string :=
  let locations := location_entities d in
  let text_tokens := tokens d in
  match endpoints text_tokens locations with
  | (Some (String _ _ as start_node), Some (String _ _ as end_node)) =>
      _ ← record_call FetchGraph;
      let campus_graph := build_graph_from_neo4j in
      if negb (dict_mem start_node campus_graph) || negb (dict_mem end_node campus_graph)
      then
        mret ("Sorry, I don't recognize one of the locations: " +:+ start_node +:+
              " or " +:+ end_node +:+ ". Please use known location names.")
      else
        '(_, path, directions) ←
          or_raise Diverged (dijkstra campus_graph start_node end_node);
        match path with
        | _ :: _ =>
            _ ← session_write user_id (set_state navigation_confirm);
            _ ← session_write user_id (set_path path);
            _ ← session_write user_id (set_directions directions);
            _ ← session_write user_id (set_current_step 0);
            first_direction ← or_raise IndexError (Py.index directions 0);
            first_destination ← or_raise IndexError (Py.index path 1);
            mret ("Okay, starting navigation from " +:+ start_node +:+ " to " +:+
                  end_node +:+ ". First, " +:+ first_direction +:+ " to reach " +:+
                  first_destination +:+ ". Let me know when you're there.")
        | [] =>
            mret ("I'm sorry, I couldn't find a path from " +:+ start_node +:+
                  " to " +:+ end_node +:+ ".")
        end
  | _ =>
      mret ("I can help with navigation. Please tell me where you are starting " +:+
            "from and where you want to go, for example: " +:+
            "'Navigate from AB1-101 to AB2-205'.")
  end.

Definition chat (data : request) : M string :=
  let user_id := default "default_user" (req_user_id data) in
  let message := Py.strip (default "" (req_message data)) in
  _ ← ensure_session user_id;
  state ← session_read user_id s_state;
  match state with
  | navigation_confirm =>
      if affirms_progress message then
        current_step ← session_read user_id (λ s, default 0 (s_current_step s));
        path ← session_read user_id (λ s, default [] (s_path s));
        directions ← session_read user_id (λ s, default [] (s_directions s));
        if decide (current_step < Z.of_nat (length path) - 1) then
          next_node ← or_raise IndexError (Py.index path (current_step + 1));
          direction_text ← or_raise IndexError (Py.index directions current_step);
          stored_step ← session_read user_id s_current_step;
          stored_step ← or_raise KeyError stored_step;
          _ ← session_write user_id (set_current_step (stored_step + 1));
          mret ("Great! Now, " +:+ direction_text +:+ " to reach " +:+ next_node +:+
                ". Let me know when you've reached.")
        else
          _ ← session_write user_id (set_state idle);
          mret "You have arrived at your destination!"
      else
        mret "Okay, I'll wait. Just say 'yes' or 'reached' when you get there."
  | teacher_selection =>
      match Py.int message with
      | Some n =>
          let choice := n - 1 in
          teachers ← session_read user_id (λ s, default [] (s_teachers s));
          if decide (0 ≤ choice < Z.of_nat (length teachers)) then
            teacher ← or_raise IndexError (Py.index teachers choice);
            _ ← session_write user_id (set_state navigate_to_teacher_confirm);
            _ ← session_write user_id (set_teacher_cabin (cabin teacher));
            mret (teacher_details teacher)
          else
            mret "That's not a valid choice. Please pick a number from the list."
      | None => mret "Please enter a number to choose a teacher."
      end
  | navigate_to_teacher_confirm =>
      if Py.contains "yes" (Py.lower message) then
        teacher_cabin ← session_read user_id s_teacher_cabin;
        teacher_cabin ← or_raise KeyError teacher_cabin;
        let phrase := "go from my current location to " +:+ teacher_cabin in
        _ ← record_call (Parse phrase);
        handle_navigation (nlp phrase) user_id
      else
        _ ← session_write user_id (set_state idle);
        mret "Alright. Let me know if you need anything else!"
  | idle =>
      _ ← record_call (Classify message);
      let intent := get_intent message in
      _ ← record_call (Parse message);
      let d := nlp message in
      if decide (intent = "greeting") then
        mret ("Hello! How can I help you today? You can ask me for directions " +:+
              "or information about teachers.")
      else if decide (intent = "goodbye") then mret "Goodbye! Have a great day."
      else if decide (intent = "thanks") then mret "You're welcome!"
      else if decide (intent = "about") then
        mret ("I am a friendly AI assistant. I can help you navigate the campus " +:+
              "and find information about faculty members.")
      else if decide (intent = "navigate") then handle_navigation d user_id
      else if decide (intent = "teacher_info") then
        let names := map text (filter (λ e, label_ e = "PERSON") (ents d)) in
        match names with
        | name :: _ =>
            first_name ← or_raise IndexError (Py.split name !! 0%nat);
            _ ← record_call (QueryDirectory first_name);
            let teachers := find_teacher_by_name first_name in
            match teachers with
            | [] => mret ("I couldn't find any teacher named " +:+ first_name +:+ ".")
            | [teacher] =>
                _ ← session_write user_id (set_state navigate_to_teacher_confirm);
                _ ← session_write user_id (set_teacher_cabin (cabin teacher));
                mret (teacher_details teacher)
            | _ =>
                _ ← session_write user_id (set_state teacher_selection);
                _ ← session_write user_id (set_teachers teachers);
                mret ("I found multiple teachers with that name. Please choose one:" +:+
                      nl +:+ teacher_lines 0 teachers)
            end
        | [] => mret "I can help with teacher details. Who are you looking for?"
        end
      else
        mret ("I'm not sure how to help with that. You can ask me for directions " +:+
              "like 'navigate from ab1 303 to ab2 112' or 'who is [teacher's name]?'")
  end.

End Chatbot.

(** ** Sample data

    The locations, connections and teachers that [setup_data] loads, every
    connection once in each direction, and simple stand-ins for the three
    collaborators, used to run the handlers on concrete requests: a
    tokenizer that splits at white space and finds no entities, a
    similarity that is 1 when the phrase occurs in the text and 0 otherwise,
    and a directory that matches first names without regard to case. *)

Definition sample_locations : list string :=
  [ "AB1_ENTRANCE"; "AB1_303"; "AB1_310"; "AB1_LIFT"; "AB1_STAIRS"; "AB1_EXIT";
    "CROSSROAD_1"; "CANTEEN"; "LIBRARY_ENTRANCE"; "AB2_ENTRANCE"; "AB2_112";
    "AB2_LIFT"; "AB2_EXIT"; "PARKING_LOT" ].

Definition sample_links : list (string * string * Z * string) :=
  [ ("AB1_ENTRANCE", "AB1_303", 10, "go straight down the corridor");
    ("AB1_303", "AB1_310", 5, "continue straight");
    ("AB1_310", "AB1_LIFT", 8, "turn left towards the lift");
    ("AB1_310", "AB1_STAIRS", 8, "turn right for the stairs");
    ("AB1_LIFT", "AB1_EXIT", 12, "exit the building from the main door");
    ("AB1_STAIRS", "AB1_EXIT", 12, "exit the building from the main door");
    ("AB1_EXIT", "CROSSROAD_1", 20, "walk across the lawn");
    ("CROSSROAD_1", "CANTEEN", 15, "take the path on your left");
    ("CROSSROAD_1", "LIBRARY_ENTRANCE", 15, "take the path on your right");
    ("CROSSROAD_1", "AB2_ENTRANCE", 25, "walk straight ahead towards the next building");
    ("AB2_ENTRANCE", "AB2_LIFT", 10, "enter and find the lift on your right");
    ("AB2_ENTRANCE", "AB2_112", 15, "go straight and take the first right");
    ("AB2_LIFT", "AB2_112", 5, "exit the lift and turn left");
    ("AB2_EXIT", "PARKING_LOT", 30, "follow the main path out") ].

Definition sample_connections : list relationship :=
  sample_links ≫= λ '(a, b, w, d),
    [ Relationship a b w d; Relationship b a w ("go back towards " +:+ a) ].

Definition sample_teachers : list teacher :=
  [ Teacher "Aayush" "Sharma" "9876543210" "Aayush.sharma@university.edu"
      "AB1_303" "AB1" "Computer Science";
    Teacher "Sneha" "Verma" "8765432109" "sneha.verma@university.edu"
      "AB2_112" "AB2" "Electronics";
    Teacher "Aarav" "Gupta" "7654321098" "aarav.gupta@university.edu"
      "AB2_112" "AB2" "Mechanical" ].

Definition sample_directory (first_name : string) : list teacher :=
  filter (λ t, Py.lower (firstName t) = Py.lower first_name) sample_teachers.

Definition sample_nlp (s : string) : doc := Doc (Py.split s) [].

Definition sample_similarity (a b : string) : Q :=
  if Py.contains b a then 1%Q else 0%Q.

Definition sample_chat : request → M string :=
  chat sample_similarity sample_nlp sample_locations sample_connections
    sample_directory.

(** Sessions in the middle of a dialog, each alone in the store under the
    user "u", and a store that knows "u" in state [idle]. *)
Definition nav_session : session :=
  Session navigation_confirm
    (Some ["AB1_303"; "AB1_310"; "AB1_LIFT"])
    (Some ["continue straight"; "turn left towards the lift"])
    (Some 0) None None.



Definition world_with (s : session) : world := World {[ "u" := s ]} [].

Definition says (message : string) : request := Request (Some "u") (Some message).

(** A tokenizer that splits at white space and reports the given entities,
    and a store with a second user in the middle of a navigation. *)
Definition sample_nlp_with (entities : list entity) (s : string) : doc :=
  Doc (Py.split s) entities.

Definition two_user_world : world :=
  World (<["v" := nav_session]> {[ "u" := new_session ]}) [FetchGraph].

(** ** Specification vocabulary *)

(** [walk g start v path c dirs]: [path] is a sequence of nodes that starts
    at [start], ends at [v] and follows edges of [g]; [c] is the sum of the
    weights of these edges and [dirs] lists their instructions in order. *)
Inductive walk (g : graph) (start : string) :
    string → list string → Z → list string → Prop :=
| walk_start : walk g start start [start] 0 []
| walk_step u v props path c dirs :
    walk g start u path c dirs →
    (v, props) ∈ neighbors g u →
    walk g start v (path ++ [v]) (c + weight_of props)
      (dirs ++ [direction_of props]).

(** The sum of the weights of a sequence of edges. *)
Definition total_weight (edges : list edge_props) : Z :=
  foldr Z.add 0 (weight_of <$> edges).

(** [follows g path edges]: the node sequence [path] traverses the edges
    [edges] of [g], edge [i] leading from node [i] to node [i + 1]. *)
Definition follows (g : graph) (path : list string) (edges : list edge_props) : Prop :=
  length path = S (length edges) ∧
  ∀ i props, edges !! i = Some props →
    ∃ u v, path !! i = Some u ∧ path !! S i = Some v ∧ (v, props) ∈ neighbors g u.

(** Some node sequence leads from [start] to [end_] along edges of [g]. *)
Definition reachable (g : graph) (start end_ : string) : Prop :=
  ∃ path edges,
    head path = Some start ∧ last path = Some end_ ∧ follows g path edges.

Definition nonneg_weights (g : graph) : Prop :=
  ∀ u v props, (v, props) ∈ neighbors g u → 0 ≤ weight_of props.

(** A decidable check of non-negative weights. *)
Definition nonneg_weightsb (g : graph) : bool :=
  forallb (λ kv, forallb (λ e, 0 <=? weight_of e.2) kv.2) g.

(** Total out-degree of the dictionary entries whose key is not settled:
    together with the length of the queue it bounds the iterations left. *)
Definition unsettled (g : graph) (seen : gset string) : nat :=
  sum_list (map (λ kv, if decide (kv.1 ∈ seen) then 0%nat else length kv.2) g).

(** A queue item carries the walk that leads to its node, without the
    node itself. *)
Definition entry_ok (g : graph) (start : string) (e : entry) : Prop :=
  let '(c, node, path, dirs) := e in walk g start node (path ++ [node]) c dirs.

(** Every edge that leaves a settled node leads to a settled node or to
    a queue item that is at most as expensive as any walk through that
    edge; the same holds for the start node. *)
Definition frontier (g : graph) (start : string)
    (seen : gset string) (queue : list entry) : Prop :=
  (start ∈ seen ∨ ∃ e, e ∈ queue ∧ entry_node e = start ∧ entry_cost e ≤ 0) ∧
  ∀ u path c dirs v props,
    u ∈ seen → walk g start u path c dirs → (v, props) ∈ neighbors g u →
    v ∈ seen ∨
    ∃ e, e ∈ queue ∧ entry_node e = v ∧ entry_cost e ≤ c + weight_of props.

(** The session is in [navigation_confirm] and holds a route: a node
    sequence, one instruction per step between its nodes, and a
    non-negative step index. *)
Definition navigating (s : session) (path directions : list string)
    (current_step : Z) : Prop :=
  s_state s = navigation_confirm ∧
  s_path s = Some path ∧
  s_directions s = Some directions ∧
  s_current_step s = Some current_step ∧
  0 ≤ current_step ∧
  length path = S (length directions).

Definition is_classify (c : call) : bool :=
  match c with Classify _ => true | _ => false end.

(** A handler that never calls the classifier: whatever the world, the calls
    it adds to the trace are not classifications. *)
Definition quiet {A} (m : M A) : Prop :=
  ∀ w, ∃ l, calls (m w).2 = calls w ++ l ∧ Forall (λ c, is_classify c = false) l.

(** The dialog state that [chat] finds for a user: sessions are created
    in state [idle] on first contact. *)
Definition state_of (w : world) (user_id : string) : dialog_state :=
  match user_sessions w !! user_id with
  | Some s => s_state s
  | None => idle
  end.

(** The example phrases in the order the classifier visits them, each with
    the intent that owns it. *)
Definition phrase_table : list (string * string) :=
  knowledge_base ≫= λ '(intent, phrases), (λ phrase, (intent, phrase)) <$> phrases.

(** The scan of the classifier over a table of (intent, phrase) pairs. *)
Definition scan_table (score : string → Q) (table : list (string * string))
    (acc : Q * string) : Q * string :=
  fold_left (λ acc '(intent, phrase), scan_phrase score intent acc phrase) table acc.

(** The payload that each dialog state relies on is present. *)
Definition session_ok (s : session) : Prop :=
  (s_state s = navigation_confirm →
   ∃ path directions current_step, navigating s path directions current_step) ∧
  (s_state s = navigate_to_teacher_confirm → is_Some (s_teacher_cabin s)) ∧
  (s_state s = teacher_selection → is_Some (s_teachers s)).

Definition world_ok (w : world) : Prop :=
  ∀ user_id s, user_sessions w !! user_id = Some s → session_ok s.

(** [triple user_id P m Q E]: started with a session of [user_id] that
    satisfies [P], the handler [m] changes at most that session, and leaves
    it satisfying [Q] when it returns and [E] when it raises. *)
Definition triple {A} (user_id : string) (P : session → Prop) (m : M A)
    (Q : A → session → Prop) (E : session → Prop) : Prop :=
  ∀ w s, user_sessions w !! user_id = Some s → P s →
    ∃ s', user_sessions (m w).2 = <[user_id := s']> (user_sessions w) ∧
      match (m w).1 with
      | Ok a => Q a s'
      | Raise _ => E s'
      end.

(** The store after a sequence of requests, served one after the other;
    a request that ends in an exception keeps the changes it made. *)
Definition serve (handler : request → M string) (requests : list request)
    (w : world) : world :=
  fold_left (λ w data, (handler data w).2) requests w.

(** Every edge that leaves a settled node leads to a settled node or to a
    node that waits in the queue, and so does the start node: the part of
    [frontier] that does not look at costs. *)
Definition covered (g : graph) (start : string)
    (seen : gset string) (queue : list entry) : Prop :=
  (start ∈ seen ∨ ∃ e, e ∈ queue ∧ entry_node e = start) ∧
  ∀ u v props,
    u ∈ seen → (v, props) ∈ neighbors g u →
    v ∈ seen ∨ ∃ e, e ∈ queue ∧ entry_node e = v.

(** The node path of a queue item repeats no node and lies within the
    settled nodes. *)
Definition settled_path (seen : gset string) (e : entry) : Prop :=
  let '(_, _, path, _) := e in NoDup path ∧ ∀ x, x ∈ path → x ∈ seen.

(** The property dictionary that [build_graph_from_neo4j] stores for a row
    of the relationship query. *)
Definition edge_of (rel : relationship) : edge_props :=
  EdgeProps (Some (rel_weight rel)) (Some (rel_direction rel)).

(** The last row of the relationship query from [s] to [t], if any. *)
Definition last_connection (connections : list relationship) (s t : string)
    : option relationship :=
  last (filter (λ rel, source rel = s ∧ target rel = t) connections).

(** The keys of a dictionary are pairwise different. *)
Definition dict_wf {V} (d : dict V) : Prop := NoDup d.*1.

(** The route that a session holds: its node sequence follows edges of
    [g], its instructions are those of the edges, and the step index points
    at one of the nodes. *)
Definition holds_route (g : graph) (s : session) : Prop :=
  ∃ path directions current_step edges,
    s_path s = Some path ∧
    s_directions s = Some directions ∧
    s_current_step s = Some current_step ∧
    0 ≤ current_step ≤ Z.of_nat (length path) - 1 ∧
    follows g path edges ∧
    directions = direction_of <$> edges.

(** What each dialog state can rely on, when the graph provider keeps
    answering with [g]. *)
Definition session_inv (g : graph) (s : session) : Prop :=
  (s_state s = navigation_confirm → holds_route g s) ∧
  (s_state s = navigate_to_teacher_confirm → is_Some (s_teacher_cabin s)) ∧
  (s_state s = teacher_selection →
   ∃ candidates, s_teachers s = Some candidates ∧ (2 ≤ length candidates)%nat).

(** The moves of the dialog state machine that one request can make. *)
Definition allowed (before after : dialog_state) : bool :=
  match before, after with
  | idle, _ => true
  | navigation_confirm, (navigation_confirm | idle) => true
  | teacher_selection, (teacher_selection | navigate_to_teacher_confirm) => true
  | navigate_to_teacher_confirm,
    (navigate_to_teacher_confirm | idle | navigation_confirm) => true
  | _, _ => false
  end.

(** A handler that sees no session but that of [user_id]: run on two
    stores that agree on this user, it gives the same result and leaves
    this user with the same session. *)
Definition local {A} (user_id : string) (m : M A) : Prop :=
  ∀ w1 w2, user_sessions w1 !! user_id = user_sessions w2 !! user_id →
    (m w1).1 = (m w2).1 ∧
    user_sessions (m w1).2 !! user_id = user_sessions (m w2).2 !! user_id.




(** ** Properties of the priority queue *)

Lemma entry_ltb_true_cost (a b : entry) :
  entry_ltb a b = true → entry_cost a ≤ entry_cost b.
Proof.
  destruct a as [[[c1 n1] p1] d1], b as [[[c2 n2] p2] d2].
  unfold entry_ltb, entry_compare, entry_cost; simpl.
  destruct (Z.compare_spec c1 c2); [lia | lia | discriminate].
Qed.

Lemma entry_ltb_false_cost (a b : entry) :
  entry_ltb a b = false → entry_cost b ≤ entry_cost a.
Proof.
  destruct a as [[[c1 n1] p1] d1], b as [[[c2 n2] p2] d2].
  unfold entry_ltb, entry_compare, entry_cost; simpl.
  destruct (Z.compare_spec c1 c2); [lia | discriminate | lia].
Qed.

Lemma extract_min_perm (x : entry) (q : list entry) m r :
  extract_min x q = (m, r) → m :: r ≡ₚ x :: q.
Proof.
  revert x m r. induction q as [|y q IH]; intros x m r; simpl.
  - intros [= <- <-]. reflexivity.
  - destruct (entry_ltb y x).
    + destruct (extract_min y q) as [m' r'] eqn:E. intros [= <- <-].
      by rewrite (Permutation_swap x m' r'), (IH _ _ _ E).
    + destruct (extract_min x q) as [m' r'] eqn:E. intros [= <- <-].
      rewrite (Permutation_swap y m' r'), (IH _ _ _ E). apply Permutation_swap.
Qed.

Lemma extract_min_least (x : entry) (q : list entry) m r :
  extract_min x q = (m, r) →
  ∀ e, e ∈ x :: q → entry_cost m ≤ entry_cost e.
Proof.
  revert x m r. induction q as [|y q IH]; intros x m r; simpl.
  - intros [= <- <-] e ->%list_elem_of_singleton. lia.
  - destruct (entry_ltb y x) eqn:L.
    + destruct (extract_min y q) as [m' r'] eqn:E. intros [= <- <-] e He.
      pose proof (IH _ _ _ E) as Hm.
      apply elem_of_cons in He as [-> | He]; [|by apply Hm].
      apply entry_ltb_true_cost in L.
      specialize (Hm y (list_elem_of_here _ _)). lia.
    + destruct (extract_min x q) as [m' r'] eqn:E. intros [= <- <-] e He.
      pose proof (IH _ _ _ E) as Hm.
      apply entry_ltb_false_cost in L.
      apply elem_of_cons in He as [-> | He]; [by apply Hm, list_elem_of_here|].
      apply elem_of_cons in He as [-> | He].
      * specialize (Hm x (list_elem_of_here _ _)). lia.
      * by apply Hm, list_elem_of_further.
Qed.

Lemma heappop_perm queue m r : heappop queue = Some (m, r) → m :: r ≡ₚ queue.
Proof.
  destruct queue as [|x q]; simpl; [discriminate|].
  intros [= E]. by apply extract_min_perm.
Qed.

Lemma heappop_least queue m r :
  heappop queue = Some (m, r) → ∀ e, e ∈ queue → entry_cost m ≤ entry_cost e.
Proof.
  destruct queue as [|x q]; simpl; [discriminate|].
  intros [= E]. by apply (extract_min_least x q m r).
Qed.

Lemma heappop_length queue m r :
  heappop queue = Some (m, r) → length queue = S (length r).
Proof. intros H%heappop_perm. by rewrite <- H. Qed.

Lemma heappop_elem_of queue m r e :
  heappop queue = Some (m, r) → e ∈ queue ↔ e = m ∨ e ∈ r.
Proof. intros H%heappop_perm. rewrite <- H. apply elem_of_cons. Qed.

Lemma push_neighbors_elem_of seen c path dirs edges queue (e : entry) :
  e ∈ push_neighbors seen c path dirs edges queue ↔
  e ∈ queue ∨
  ∃ v props, (v, props) ∈ edges ∧ (v ∉ seen) ∧
    e = (c + weight_of props, v, path, dirs ++ [direction_of props]).
Proof.
  unfold push_neighbors. revert queue.
  induction edges as [|[v props] edges IH]; intros queue; simpl.
  - split; [by left|]. intros [?|(? & ? & []%elem_of_nil & _)]; done.
  - rewrite IH. clear IH. destruct (decide (v ∈ seen)) as [Hin|Hnin].
    + split; (intros [?|(v' & props' & Hel & Hs & ->)]; [by left|right]).
      * exists v', props'. split_and!; [by apply list_elem_of_further|done..].
      * apply elem_of_cons in Hel as [[= -> ->]|Hel]; [done|].
        by exists v', props'.
    + unfold heappush. rewrite elem_of_app, list_elem_of_singleton. split.
      * intros [[?| ->]|(v' & props' & Hel & Hs & ->)]; [by left|right..].
        -- exists v, props. split_and!; [apply list_elem_of_here|done..].
        -- exists v', props'. split_and!; [by apply list_elem_of_further|done..].
      * intros [?|(v' & props' & Hel & Hs & ->)]; [by left; left|].
        apply elem_of_cons in Hel as [[= -> ->]|Hel]; [by left; right|].
        right. by exists v', props'.
Qed.

Lemma push_neighbors_length seen c path dirs edges queue :
  (length (push_neighbors seen c path dirs edges queue)
   ≤ length queue + length edges)%nat.
Proof.
  unfold push_neighbors. revert queue.
  induction edges as [|[v props] edges IH]; intros queue; simpl; [lia|].
  etrans; [apply IH|]. destruct (decide (v ∈ seen)); unfold heappush;
    rewrite ?length_app; simpl; lia.
Qed.

(** ** Correctness of the path router *)

Section Router.
Variable g : graph.
Variable start : string.

#[local] Abbreviation entry_ok := (entry_ok g start).
#[local] Abbreviation frontier := (frontier g start).

Lemma walk_cost_nonneg v path c dirs :
  nonneg_weights g → walk g start v path c dirs → 0 ≤ c.
Proof.
  intros Hnn. induction 1 as [|u v props path c dirs _ IH Hedge]; [lia|].
  specialize (Hnn _ _ _ Hedge). lia.
Qed.

Lemma frontier_reaches seen queue v path c dirs :
  nonneg_weights g → frontier seen queue →
  walk g start v path c dirs → v ∉ seen →
  ∃ e, e ∈ queue ∧ entry_cost e ≤ c.
Proof.
  intros Hnn [Hstart Hedges]. induction 1 as [|u v props path c dirs Hw IH Hedge].
  - intros Hv. destruct Hstart as [?|(e & ? & _ & ?)]; [done|by exists e].
  - intros Hv. destruct (decide (u ∈ seen)) as [Hu|Hu].
    + destruct (Hedges _ _ _ _ _ _ Hu Hw Hedge) as [?|(e & ? & _ & ?)];
        [done|by exists e].
    + destruct (IH Hu) as (e & ? & ?). exists e. split; [done|].
      specialize (Hnn _ _ _ Hedge). lia.
Qed.

Lemma frontier_init : frontier ∅ [(0, start, [], [])].
Proof.
  split.
  - right. exists (0, start, [], []). split_and!; [apply list_elem_of_here|done..].
  - intros u ? ? ? ? ? []%not_elem_of_empty.
Qed.

Lemma frontier_discard seen queue m r :
  heappop queue = Some (m, r) → entry_node m ∈ seen →
  frontier seen queue → frontier seen r.
Proof.
  intros Hpop Hm [Hstart Hedges]. split.
  - destruct Hstart as [?|(e & He & Hn & ?)]; [by left|].
    apply (heappop_elem_of _ _ _ _ Hpop) in He as [-> | He].
    + left. by rewrite <- Hn.
    + right. by exists e.
  - intros u path c dirs v props Hu Hw Hedge.
    destruct (Hedges _ _ _ _ _ _ Hu Hw Hedge) as [?|(e & He & Hn & ?)]; [by left|].
    apply (heappop_elem_of _ _ _ _ Hpop) in He as [-> | He].
    + left. by rewrite <- Hn.
    + right. by exists e.
Qed.

Lemma frontier_settle seen queue c node path dirs r :
  nonneg_weights g →
  heappop queue = Some ((c, node, path, dirs), r) → node ∉ seen →
  frontier seen queue →
  frontier ({[node]} ∪ seen)
    (push_neighbors ({[node]} ∪ seen) c (path ++ [node]) dirs (neighbors g node) r).
Proof.
  intros Hnn Hpop Hnode Hfr.
  assert (Hkeep : ∀ e, e ∈ queue → entry_node e ≠ node →
    e ∈ push_neighbors ({[node]} ∪ seen) c (path ++ [node]) dirs (neighbors g node) r).
  { intros e He Hne. apply push_neighbors_elem_of. left.
    apply (heappop_elem_of _ _ _ _ Hpop) in He as [-> | He]; done. }
  split.
  - destruct (decide (start = node)) as [->|Hne]; [left; set_solver|].
    destruct Hfr as [[?|(e & He & Hn & ?)] _]; [left; set_solver|].
    right. exists e. split_and!; [|done..]. apply Hkeep; [done|congruence].
  - intros u path' c' dirs' v props Hu Hw Hedge.
    destruct (decide (v ∈ {[node]} ∪ seen)) as [?|Hv]; [by left|right].
    destruct (decide (u = node)) as [->|Hne].
    + exists (c + weight_of props, v, path ++ [node], dirs ++ [direction_of props]).
      split_and!; [|done|].
      * apply push_neighbors_elem_of. right. by exists v, props.
      * destruct (frontier_reaches _ _ _ _ _ _ Hnn Hfr Hw Hnode) as (e & He & Hle).
        pose proof (heappop_least _ _ _ Hpop e He) as Hmin.
        unfold entry_cost in *; simpl in *. lia.
    + destruct Hfr as [_ Hedges].
      apply not_elem_of_union in Hv as [Hv1%not_elem_of_singleton Hv2].
      apply elem_of_union in Hu as [Hu%elem_of_singleton|Hu]; [done|].
      destruct (Hedges u path' c' dirs' v props) as [?|(e & He & Hn & ?)];
        [done..|].
      exists e. split_and!; [|done..]. apply Hkeep; [done|congruence].
Qed.

Lemma entry_ok_push seen queue c node path dirs r :
  heappop queue = Some ((c, node, path, dirs), r) →
  Forall entry_ok queue →
  Forall entry_ok
    (push_neighbors seen c (path ++ [node]) dirs (neighbors g node) r).
Proof.
  intros Hpop Hok. rewrite Forall_forall in Hok. apply Forall_forall.
  assert (Hm : entry_ok (c, node, path, dirs)).
  { apply Hok, (heappop_elem_of _ _ _ _ Hpop). by left. }
  intros e' He. apply push_neighbors_elem_of in He.
  destruct He as [He|(v & props & Hedge & _ & Heq)].
  - apply Hok, (heappop_elem_of _ _ _ _ Hpop). by right.
  - rewrite Heq. simpl. by eapply walk_step.
Qed.

(** The loop returns either "no path" or a finite cost with the walk
    that the popped item carried. *)
Lemma dijkstra_loop_sound fuel end_ seen queue r :
  Forall entry_ok queue →
  dijkstra_loop fuel g end_ seen queue = Some r →
  r = (Infinity, [], []) ∨
  ∃ c path dirs, r = (Finite c, path, dirs) ∧ walk g start end_ path c dirs.
Proof.
  revert seen queue. induction fuel as [|fuel IH]; intros seen queue Hok; simpl;
    [discriminate|].
  destruct (heappop queue) as [[[[[c node] path] dirs] q]|] eqn:Hpop;
    [|intros [= <-]; by left].
  destruct (decide (node ∈ seen)) as [Hin|Hnin].
  { apply IH. rewrite Forall_forall in Hok. apply Forall_forall. intros e He.
    apply Hok, (heappop_elem_of _ _ _ _ Hpop). by right. }
  destruct (decide (node = end_)) as [->|].
  - intros [= <-]. right. exists c, (path ++ [end_]), dirs. split; [done|].
    rewrite Forall_forall in Hok.
    apply (Hok (c, end_, path, dirs)), (heappop_elem_of _ _ _ _ Hpop). by left.
  - apply IH. by eapply entry_ok_push.
Qed.

(** With non-negative weights a finite result is at most as expensive
    as any walk from the start to the end node. *)
Lemma dijkstra_loop_least fuel end_ seen queue c path dirs :
  nonneg_weights g → frontier seen queue →
  dijkstra_loop fuel g end_ seen queue = Some (Finite c, path, dirs) →
  ∀ path' c' dirs', walk g start end_ path' c' dirs' → c ≤ c'.
Proof.
  intros Hnn. revert seen queue.
  induction fuel as [|fuel IH]; intros seen queue Hfr; simpl; [discriminate|].
  destruct (heappop queue) as [[[[[c0 node] path0] dirs0] q]|] eqn:Hpop;
    [|discriminate].
  destruct (decide (node ∈ seen)) as [Hin|Hnin].
  { apply IH. by eapply frontier_discard. }
  destruct (decide (node = end_)) as [->|].
  - intros [= -> <- <-] path' c' dirs' Hw.
    destruct (frontier_reaches _ _ _ _ _ _ Hnn Hfr Hw) as (e & He & Hle); [done|].
    pose proof (heappop_least _ _ _ Hpop e He) as Hmin.
    unfold entry_cost in *; simpl in *. lia.
  - apply IH. by eapply frontier_settle.
Qed.

Lemma unsettled_mono seen node :
  (unsettled g ({[node]} ∪ seen) ≤ unsettled g seen)%nat.
Proof.
  unfold unsettled. induction g as [|[k adj] g' IH]; simpl; [lia|].
  destruct (decide (k ∈ {[node]} ∪ seen)), (decide (k ∈ seen)); try lia.
  set_solver.
Qed.

End Router.

Lemma unsettled_settle (g : graph) seen node :
  node ∉ seen →
  (unsettled g ({[node]} ∪ seen) + length (neighbors g node) ≤ unsettled g seen)%nat.
Proof.
  intros Hnode. unfold unsettled, neighbors.
  induction g as [|[k adj] g' IH]; simpl; [lia|].
  destruct (decide (node = k)) as [->|Hne]; simpl.
  - pose proof (unsettled_mono g' seen k) as Hmono. unfold unsettled in Hmono.
    destruct (decide (k ∈ {[k]} ∪ seen)); [|set_solver].
    destruct (decide (k ∈ seen)); [done|]. lia.
  - destruct (decide (k ∈ {[node]} ∪ seen)), (decide (k ∈ seen));
      try lia; set_solver.
Qed.

Lemma unsettled_empty (g : graph) : unsettled g ∅ = edge_count g.
Proof.
  unfold unsettled, edge_count.
  induction g as [|[k adj] g' IH]; simpl; [done|]. by rewrite IH.
Qed.

(** The loop terminates: the fuel never runs out when it exceeds the
    length of the queue plus the out-degree still to be explored. *)
Lemma dijkstra_loop_total (g : graph) fuel end_ seen queue :
  (length queue + unsettled g seen < fuel)%nat →
  is_Some (dijkstra_loop fuel g end_ seen queue).
Proof.
  revert seen queue. induction fuel as [|fuel IH]; intros seen queue Hlt; simpl; [lia|].
  destruct (heappop queue) as [[[[[c node] path] dirs] q]|] eqn:Hpop; [|done].
  apply heappop_length in Hpop.
  destruct (decide (node ∈ seen)) as [|Hnode]; [apply IH; lia|].
  destruct (decide (node = end_)); [done|].
  apply IH.
  pose proof (push_neighbors_length ({[node]} ∪ seen) c (path ++ [node]) dirs
                (neighbors g node) q).
  pose proof (unsettled_settle g seen node Hnode). lia.
Qed.

(** A result does not depend on the fuel that was left over. *)
Lemma dijkstra_loop_more_fuel (g : graph) fuel extra end_ seen queue r :
  dijkstra_loop fuel g end_ seen queue = Some r →
  dijkstra_loop (fuel + extra) g end_ seen queue = Some r.
Proof.
  revert seen queue. induction fuel as [|fuel IH]; intros seen queue; simpl;
    [discriminate|].
  destruct (heappop queue) as [[[[[c node] path] dirs] q]|]; [|done].
  destruct (decide (node ∈ seen)); [apply IH|].
  destruct (decide (node = end_)); [done|apply IH].
Qed.

Lemma dijkstra_total (g : graph) start end_ : is_Some (dijkstra g start end_).
Proof.
  apply dijkstra_loop_total. rewrite unsettled_empty. simpl. lia.
Qed.

Lemma dijkstra_sound (g : graph) start end_ r :
  dijkstra g start end_ = Some r →
  r = (Infinity, [], []) ∨
  ∃ c path dirs, r = (Finite c, path, dirs) ∧ walk g start end_ path c dirs.
Proof.
  apply dijkstra_loop_sound. apply Forall_singleton. simpl. constructor.
Qed.

Lemma dijkstra_least (g : graph) start end_ c path dirs :
  nonneg_weights g →
  dijkstra g start end_ = Some (Finite c, path, dirs) →
  ∀ path' c' dirs', walk g start end_ path' c' dirs' → c ≤ c'.
Proof. intros Hnn. by apply dijkstra_loop_least, frontier_init. Qed.

(** ** Shape of a walk *)

Lemma walk_shape (g : graph) start v path c dirs :
  walk g start v path c dirs →
  length path = S (length dirs) ∧
  head path = Some start ∧
  path !! length dirs = Some v ∧
  ∀ i instruction, dirs !! i = Some instruction →
    ∃ u u' props, path !! i = Some u ∧ path !! S i = Some u' ∧
      (u', props) ∈ neighbors g u ∧ instruction = direction_of props.
Proof.
  induction 1 as [|u v props path c dirs Hw (Hlen & Hhead & Hlast & Hedges) Hedge].
  { split_and!; [done..|]. intros i instruction Hi. by rewrite lookup_nil in Hi. }
  split_and!.
  - rewrite !length_app. simpl. lia.
  - destruct path; [done|]. done.
  - rewrite length_app. simpl. rewrite lookup_app_r by lia.
    replace (length dirs + 1 - length path)%nat with 0%nat by lia. done.
  - intros i instruction Hi.
    destruct (decide (i < length dirs)%nat) as [Hlt|Hge].
    + rewrite lookup_app_l in Hi by done.
      destruct (Hedges _ _ Hi) as (u1 & u2 & props' & H1 & H2 & H3 & H4).
      exists u1, u2, props'. split_and!; [| |done..].
      * by apply lookup_app_l_Some.
      * by apply lookup_app_l_Some.
    + pose proof (lookup_lt_Some _ _ _ Hi) as Hi'.
      rewrite length_app in Hi'. simpl in Hi'.
      assert (i = length dirs) as -> by lia.
      rewrite lookup_app_r in Hi by lia.
      replace (length dirs - length dirs)%nat with 0%nat in Hi by lia.
      injection Hi as <-.
      exists u, v, props. split_and!; [| |done..].
      * by apply lookup_app_l_Some.
      * rewrite lookup_app_r by lia.
        replace (S (length dirs) - length path)%nat with 0%nat by lia. done.
Qed.

Lemma walk_last (g : graph) start v path c dirs :
  walk g start v path c dirs → last path = Some v.
Proof. destruct 1; [done|]. by rewrite last_snoc. Qed.

Lemma dict_get_elem_of {V} (k : string) (d : dict V) v :
  dict_get k d = Some v → (k, v) ∈ d.
Proof.
  induction d as [|[k' v'] d IH]; simpl; [done|].
  destruct (decide (k = k')) as [->|]; [intros [= ->]; left|right; auto].
Qed.

Lemma nonneg_weightsb_sound (g : graph) :
  nonneg_weightsb g = true → nonneg_weights g.
Proof.
  unfold nonneg_weightsb, nonneg_weights, neighbors. intros Hall u v props Hin.
  destruct (dict_get u g) as [adj|] eqn:Hget; simpl in Hin;
    [|by apply elem_of_nil in Hin].
  apply dict_get_elem_of in Hget.
  rewrite forallb_forall in Hall.
  specialize (Hall _ (proj1 (list_elem_of_In _ _) Hget)). simpl in Hall.
  rewrite forallb_forall in Hall.
  specialize (Hall _ (proj1 (list_elem_of_In _ _) Hin)). simpl in Hall. lia.
Qed.

Lemma dijkstra_loop_same_node (g : graph) fuel s :
  dijkstra_loop (S fuel) g s ∅ [(0, s, [], [])] = Some (Finite 0, [s], []).
Proof.
  simpl. destruct (decide (s ∈ (∅ : gset string))) as [[]%not_elem_of_empty|_].
  by destruct (decide (s = s)).
Qed.

Lemma dijkstra_same_node (g : graph) s :
  dijkstra g s s = Some (Finite 0, [s], []).
Proof.
  unfold dijkstra. replace (edge_count g + 2)%nat with (S (edge_count g + 1)) by lia.
  apply dijkstra_loop_same_node.
Qed.

Lemma dijkstra_no_walk (g : graph) start end_ :
  (¬ ∃ path c dirs, walk g start end_ path c dirs) →
  dijkstra g start end_ = Some (Infinity, [], []).
Proof.
  intros Hno. destruct (dijkstra_total g start end_) as [r Hr].
  destruct (dijkstra_sound _ _ _ _ Hr) as [->|(c & path & dirs & -> & Hw)]; [done|].
  destruct Hno. by exists path, c, dirs.
Qed.

(** With non-negative weights the loop finds the end node whenever a walk
    leads to it. *)
Lemma dijkstra_loop_finds (g : graph) start fuel end_ seen queue r :
  nonneg_weights g → frontier g start seen queue → end_ ∉ seen →
  (∃ path c dirs, walk g start end_ path c dirs) →
  dijkstra_loop fuel g end_ seen queue = Some r →
  ∃ c path dirs, r = (Finite c, path, dirs).
Proof.
  intros Hnn. revert seen queue.
  induction fuel as [|fuel IH]; intros seen queue Hfr Hend Hw; simpl; [discriminate|].
  destruct (heappop queue) as [[[[[c0 node] path0] dirs0] q]|] eqn:Hpop.
  - destruct (decide (node ∈ seen)) as [Hin|Hnin].
    { apply IH; [by eapply frontier_discard|done..]. }
    destruct (decide (node = end_)) as [->|Hne].
    + intros [= <-]. by eexists _, _, _.
    + apply IH; [by eapply frontier_settle| |done].
      intros [?%elem_of_singleton|?]%elem_of_union; congruence.
  - destruct Hw as (path & c & dirs & Hw).
    destruct (frontier_reaches _ _ _ _ _ _ _ _ Hnn Hfr Hw Hend) as (e & He & _).
    destruct queue; [by apply elem_of_nil in He|discriminate].
Qed.

Lemma dijkstra_infinite_no_walk (g : graph) start end_ path dirs :
  nonneg_weights g →
  dijkstra g start end_ = Some (Infinity, path, dirs) →
  ¬ ∃ path' c dirs', walk g start end_ path' c dirs'.
Proof.
  intros Hnn Hd Hw.
  destruct (dijkstra_loop_finds g start _ _ _ _ _ Hnn (frontier_init g start)
              (not_elem_of_empty _) Hw Hd) as (? & ? & ? & [=]).
Qed.

(** ** Walks as node sequences that follow edges *)

Lemma total_weight_snoc (edges : list edge_props) (props : edge_props) :
  total_weight (edges ++ [props]) = total_weight edges + weight_of props.
Proof.
  unfold total_weight. rewrite fmap_app, foldr_app. simpl.
  generalize (weight_of props). generalize (weight_of <$> edges).
  intros l z. induction l as [|x l IH]; simpl; lia.
Qed.

Lemma walk_follows (g : graph) start v path c dirs :
  walk g start v path c dirs →
  ∃ edges, head path = Some start ∧ last path = Some v ∧ follows g path edges ∧
    c = total_weight edges ∧ dirs = direction_of <$> edges.
Proof.
  induction 1 as [|u v props path c dirs Hw
                   (edges & Hhead & Hlast & [Hlen Hedges] & -> & ->) Hedge].
  { exists []. split_and!; [done..| |done|done]. split; [done|].
    intros i props Hi. by rewrite lookup_nil in Hi. }
  exists (edges ++ [props]). split_and!.
  - by destruct path.
  - by rewrite last_snoc.
  - split; [rewrite !length_app; simpl; lia|]. intros i props' Hi.
    destruct (decide (i < length edges)%nat) as [Hlt|Hge].
    + rewrite lookup_app_l in Hi by done.
      destruct (Hedges _ _ Hi) as (u1 & u2 & H1 & H2 & H3).
      exists u1, u2. split_and!; [by apply lookup_app_l_Some..|done].
    + pose proof (lookup_lt_Some _ _ _ Hi) as Hi'.
      rewrite length_app in Hi'. simpl in Hi'.
      assert (i = length edges) as -> by lia.
      rewrite lookup_app_r, Nat.sub_diag in Hi by lia. injection Hi as <-.
      exists u, v. split_and!; [| |done].
      * apply lookup_app_l_Some. rewrite last_lookup, Hlen in Hlast. done.
      * rewrite lookup_app_r by lia.
        by replace (S (length edges) - length path)%nat with 0%nat by lia.
  - by rewrite total_weight_snoc.
  - by rewrite fmap_app.
Qed.

Lemma follows_walk (g : graph) start v path edges :
  head path = Some start → last path = Some v → follows g path edges →
  walk g start v path (total_weight edges) (direction_of <$> edges).
Proof.
  revert v path. induction edges as [|props edges IH] using rev_ind;
    intros v path Hhead Hlast [Hlen Hedges].
  - destruct path as [|x [|y path]]; simplify_eq/=. constructor.
  - rewrite length_app in Hlen. simpl in Hlen.
    destruct path as [|x path _] using rev_ind; [done|].
    rewrite last_snoc in Hlast. injection Hlast as ->.
    rewrite length_app in Hlen. simpl in Hlen.
    destruct (Hedges (length edges) props) as (u & v' & Hu & Hv & Hedge).
    { by rewrite lookup_app_r, Nat.sub_diag by lia. }
    rewrite lookup_app_l in Hu by lia.
    rewrite lookup_app_r in Hv by lia.
    replace (S (length edges) - length path)%nat with 0%nat in Hv by lia.
    injection Hv as <-.
    rewrite total_weight_snoc, fmap_app. apply walk_step with u; [|done].
    apply IH.
    + destruct path; [simpl in Hlen; lia|done].
    + rewrite last_lookup. by replace (pred (length path)) with (length edges) by lia.
    + split; [lia|]. intros i props' Hi.
      pose proof (lookup_lt_Some _ _ _ Hi) as Hlt.
      destruct (Hedges i props') as (u1 & u2 & H1 & H2 & H3).
      { by apply lookup_app_l_Some. }
      rewrite lookup_app_l in H1, H2 by lia. by exists u1, u2.
Qed.

Lemma reachable_walk (g : graph) start end_ :
  reachable g start end_ ↔ ∃ path c dirs, walk g start end_ path c dirs.
Proof.
  split.
  - intros (path & edges & Hhead & Hlast & Hfollows).
    eexists path, _, _. by apply follows_walk.
  - intros (path & c & dirs & Hw).
    destruct (walk_follows _ _ _ _ _ _ Hw) as (edges & ? & ? & ? & _).
    by exists path, edges.
Qed.

Lemma dijkstra_unreachable (g : graph) start end_ :
  ¬ reachable g start end_ → dijkstra g start end_ = Some (Infinity, [], []).
Proof. rewrite reachable_walk. apply dijkstra_no_walk. Qed.

Lemma dijkstra_infinite_unreachable (g : graph) start end_ path dirs :
  nonneg_weights g →
  dijkstra g start end_ = Some (Infinity, path, dirs) →
  ¬ reachable g start end_.
Proof. rewrite reachable_walk. apply dijkstra_infinite_no_walk. Qed.

(** ** The path router: main results *)

(** C1.  With non-negative edge weights, a finite result of [dijkstra] is a
    path of the graph from the start node to the end node: the node sequence
    begins at [start], ends at [end_], and traverses a sequence of edges of
    the graph; the cost is the sum of the weights of these edges, and the
    instructions are theirs, in order.  No node sequence from [start] to
    [end_] that follows edges of the graph has a smaller total weight.
    Neither node needs to be a key of the graph for this.  On the graph with
    the two edges A to B (weight 5, "turn left") and B to C (weight 5, "go
    straight") the route from A to C costs 10, visits A, B, C and carries
    the two instructions in order. *)
Theorem dijkstra_shortest_path :
  (∀ (g : graph) (start end_ : string) c path dirs,
     nonneg_weights g →
     dijkstra g start end_ = Some (Finite c, path, dirs) →
     (∃ edges,
        head path = Some start ∧ last path = Some end_ ∧ follows g path edges ∧
        c = total_weight edges ∧ dirs = direction_of <$> edges) ∧
     ∀ path' edges',
       head path' = Some start → last path' = Some end_ → follows g path' edges' →
       c ≤ total_weight edges') ∧
  dijkstra two_edge_graph "A" "C"
  = Some (Finite 10, ["A"; "B"; "C"], ["turn left"; "go straight"]).
Proof.
  split; [|by vm_compute].
  intros g start end_ c path dirs Hnn Hd.
  destruct (dijkstra_sound _ _ _ _ Hd) as [[=]|(c0 & p0 & d0 & [= <- <- <-] & Hw)].
  split; [by eapply walk_follows|].
  intros path' edges' Hhead Hlast Hfollows.
  eapply dijkstra_least; [done..|]. by apply follows_walk.
Qed.

Lemma dijkstra_shortest_path_witness :
  (∃ edges,
     head ["A"; "B"; "C"] = Some "A" ∧ last ["A"; "B"; "C"] = Some "C" ∧
     follows two_edge_graph ["A"; "B"; "C"] edges ∧
     10 = total_weight edges ∧
     ["turn left"; "go straight"] = direction_of <$> edges) ∧
  ∀ path' edges',
    head path' = Some "A" → last path' = Some "C" →
    follows two_edge_graph path' edges' → 10 ≤ total_weight edges'.
Proof.
  apply (proj1 dijkstra_shortest_path two_edge_graph "A" "C").
  - apply nonneg_weightsb_sound. vm_compute. reflexivity.
  - vm_compute. reflexivity.
Defined.

(** C6.  Routing a node to itself returns cost 0, the path that consists of
    that node alone, and no instruction, whatever the graph. *)
Theorem dijkstra_start_is_end (g : graph) (s : string) :
  dijkstra g s s = Some (Finite 0, [s], []).
Proof.
  unfold dijkstra. rewrite Nat.add_succ_r.
  apply dijkstra_loop_same_node.
Qed.

(** C7.  In a finite result of [dijkstra] the node sequence is one longer
    than the instruction sequence, and instruction [i] is the instruction of
    an edge of the graph from node [i] to node [i + 1] of the sequence. *)
Theorem dijkstra_instructions_match_edges (g : graph) (start end_ : string)
    c path dirs :
  dijkstra g start end_ = Some (Finite c, path, dirs) →
  length path = (length dirs + 1)%nat ∧
  ∀ i instruction, dirs !! i = Some instruction →
    ∃ u v props, path !! i = Some u ∧ path !! (i + 1)%nat = Some v ∧
      (v, props) ∈ neighbors g u ∧ instruction = direction_of props.
Proof.
  intros Hd.
  destruct (dijkstra_sound _ _ _ _ Hd) as [[=]|(c0 & p0 & d0 & [= <- <- <-] & Hw)].
  destruct (walk_shape _ _ _ _ _ _ Hw) as (Hlen & _ & _ & Hedges).
  split; [lia|]. intros i instruction Hi.
  destruct (Hedges _ _ Hi) as (u & v & props & ? & ? & ? & ?).
  exists u, v, props. by rewrite Nat.add_1_r.
Qed.

Lemma dijkstra_instructions_match_edges_witness :
  length ["A"; "B"; "C"] = (length ["turn left"; "go straight"] + 1)%nat ∧
  ∀ i instruction, ["turn left"; "go straight"] !! i = Some instruction →
    ∃ u v props, ["A"; "B"; "C"] !! i = Some u ∧
      ["A"; "B"; "C"] !! (i + 1)%nat = Some v ∧
      (v, props) ∈ neighbors two_edge_graph u ∧ instruction = direction_of props.
Proof.
  apply (dijkstra_instructions_match_edges two_edge_graph "A" "C" 10).
  vm_compute. reflexivity.
Defined.

(** ** The path router: termination, reachability, simple routes *)

Lemma covered_init (g : graph) start : covered g start ∅ [(0, start, [], [])].
Proof.
  split.
  - right. exists (0, start, [], []). split; [apply list_elem_of_here|done].
  - intros u ? ? []%not_elem_of_empty.
Qed.

Lemma covered_discard (g : graph) start seen queue m r :
  heappop queue = Some (m, r) → entry_node m ∈ seen →
  covered g start seen queue → covered g start seen r.
Proof.
  intros Hpop Hm [Hstart Hedges]. split.
  - destruct Hstart as [?|(e & He & Hn)]; [by left|].
    apply (heappop_elem_of _ _ _ _ Hpop) in He as [-> | He].
    + left. by rewrite <- Hn.
    + right. by exists e.
  - intros u v props Hu Hedge.
    destruct (Hedges _ _ _ Hu Hedge) as [?|(e & He & Hn)]; [by left|].
    apply (heappop_elem_of _ _ _ _ Hpop) in He as [-> | He].
    + left. by rewrite <- Hn.
    + right. by exists e.
Qed.

Lemma covered_settle (g : graph) start seen queue c node path dirs r :
  heappop queue = Some ((c, node, path, dirs), r) → node ∉ seen →
  covered g start seen queue →
  covered g start ({[node]} ∪ seen)
    (push_neighbors ({[node]} ∪ seen) c (path ++ [node]) dirs (neighbors g node) r).
Proof.
  intros Hpop Hnode [Hstart Hedges].
  assert (Hkeep : ∀ e, e ∈ queue → entry_node e ≠ node →
    e ∈ push_neighbors ({[node]} ∪ seen) c (path ++ [node]) dirs (neighbors g node) r).
  { intros e He Hne. apply push_neighbors_elem_of. left.
    apply (heappop_elem_of _ _ _ _ Hpop) in He as [-> | He]; done. }
  split.
  - destruct (decide (start = node)) as [->|Hne].
    { left. apply elem_of_union_l. by apply elem_of_singleton. }
    destruct Hstart as [?|(e & He & Hn)]; [left; by apply elem_of_union_r|].
    right. exists e. split; [|done]. apply Hkeep; [done|congruence].
  - intros u v props Hu Hedge.
    destruct (decide (v ∈ {[node]} ∪ seen)) as [?|Hv]; [by left|right].
    destruct (decide (u = node)) as [->|Hne].
    + exists (c + weight_of props, v, path ++ [node], dirs ++ [direction_of props]).
      split; [|done]. apply push_neighbors_elem_of. right. by exists v, props.
    + apply not_elem_of_union in Hv as [Hv1%not_elem_of_singleton Hv2].
      apply elem_of_union in Hu as [Hu%elem_of_singleton|Hu]; [done|].
      destruct (Hedges u v props) as [?|(e & He & Hn)]; [done..|].
      exists e. split; [|done]. apply Hkeep; [done|congruence].
Qed.

Lemma covered_reaches (g : graph) start seen queue v path c dirs :
  covered g start seen queue → walk g start v path c dirs → v ∉ seen →
  queue ≠ [].
Proof.
  intros [Hstart Hedges]. induction 1 as [|u v props path c dirs Hw IH Hedge].
  - intros Hv. destruct Hstart as [?|(e & He & _)]; [done|].
    intros ->. by apply elem_of_nil in He.
  - intros Hv. destruct (decide (u ∈ seen)) as [Hu|Hu]; [|by apply IH].
    destruct (Hedges _ _ _ Hu Hedge) as [?|(e & He & _)]; [done|].
    intros ->. by apply elem_of_nil in He.
Qed.

Lemma dijkstra_loop_finds_walk (g : graph) start fuel end_ seen queue r :
  covered g start seen queue → end_ ∉ seen →
  (∃ path c dirs, walk g start end_ path c dirs) →
  dijkstra_loop fuel g end_ seen queue = Some r →
  ∃ c path dirs, r = (Finite c, path, dirs).
Proof.
  revert seen queue.
  induction fuel as [|fuel IH]; intros seen queue Hcov Hend Hw; simpl; [discriminate|].
  destruct (heappop queue) as [[[[[c0 node] path0] dirs0] q]|] eqn:Hpop.
  - destruct (decide (node ∈ seen)) as [Hin|Hnin].
    { apply IH; [by eapply covered_discard|done..]. }
    destruct (decide (node = end_)) as [->|Hne].
    + intros [= <-]. by eexists _, _, _.
    + apply IH; [by eapply covered_settle| |done].
      intros [?%elem_of_singleton|?]%elem_of_union; congruence.
  - destruct Hw as (path & c & dirs & Hw).
    destruct (covered_reaches _ _ _ _ _ _ _ _ Hcov Hw Hend). by destruct queue.
Qed.

(** X1.  The router loop ends: started from the single item for the start
    node it returns a result within [edge_count g + 2] iterations, and the
    result is the same however many further iterations are allowed. *)
Theorem dijkstra_terminates (g : graph) (start end_ : string) :
  ∃ r, ∀ fuel, (edge_count g + 2 ≤ fuel)%nat →
    dijkstra_loop fuel g end_ ∅ [(0, start, [], [])] = Some r.
Proof.
  destruct (dijkstra_total g start end_) as [r Hr]. exists r. intros fuel Hfuel.
  replace fuel with ((edge_count g + 2) + (fuel - (edge_count g + 2)))%nat by lia.
  by apply dijkstra_loop_more_fuel.
Qed.

Lemma dijkstra_reachable_finite (g : graph) (start end_ : string) :
  reachable g start end_ →
  ∃ c path dirs, dijkstra g start end_ = Some (Finite c, path, dirs).
Proof.
  intros Hr%reachable_walk. destruct (dijkstra_total g start end_) as [r Hd].
  destruct (dijkstra_loop_finds_walk g start _ _ _ _ _ (covered_init g start)
              (not_elem_of_empty _) Hr Hd) as (c & path & dirs & ->).
  by exists c, path, dirs.
Qed.

(** X2.  Whatever the weights, [dijkstra] returns a finite cost exactly when
    some node sequence leads from the start node to the end node along
    edges of the graph; otherwise it returns the infinite cost with two
    empty sequences. *)
Theorem dijkstra_finite_iff_reachable (g : graph) (start end_ : string) :
  ((∃ c path dirs, dijkstra g start end_ = Some (Finite c, path, dirs)) ↔
   reachable g start end_) ∧
  (dijkstra g start end_ = Some (Infinity, [], []) ↔ ¬ reachable g start end_).
Proof.
  split; split.
  - intros (c & path & dirs & Hd). apply reachable_walk.
    destruct (dijkstra_sound _ _ _ _ Hd) as [[=]|(c0 & p0 & d0 & [= <- <- <-] & Hw)].
    by exists path, c, dirs.
  - apply dijkstra_reachable_finite.
  - intros Hd Hr.
    destruct (dijkstra_reachable_finite _ _ _ Hr) as (c & path & dirs & Hd').
    congruence.
  - apply dijkstra_unreachable.
Qed.

Lemma settled_path_push (g : graph) seen queue c node path dirs r :
  heappop queue = Some ((c, node, path, dirs), r) → node ∉ seen →
  Forall (settled_path seen) queue →
  Forall (settled_path ({[node]} ∪ seen))
    (push_neighbors ({[node]} ∪ seen) c (path ++ [node]) dirs (neighbors g node) r).
Proof.
  intros Hpop Hnode Hall. rewrite Forall_forall in Hall. apply Forall_forall.
  assert (Hm : settled_path seen (c, node, path, dirs)).
  { apply Hall, (heappop_elem_of _ _ _ _ Hpop). by left. }
  destruct Hm as [Hnd Hin].
  intros e He. apply push_neighbors_elem_of in He.
  destruct He as [He|(v & props & _ & _ & Heq)].
  - assert (Hq : settled_path seen e).
    { apply Hall, (heappop_elem_of _ _ _ _ Hpop). by right. }
    destruct e as [[[c' n'] p'] d']. destruct Hq as [? Hsub].
    split; [done|]. intros x Hx. apply elem_of_union_r. by apply Hsub.
  - rewrite Heq. split.
    + apply NoDup_app. split_and!; [done| |apply NoDup_singleton].
      intros x Hx ->%list_elem_of_singleton. by apply Hnode, Hin.
    + intros x [Hx| ->%list_elem_of_singleton]%elem_of_app.
      * apply elem_of_union_r. by apply Hin.
      * apply elem_of_union_l. by apply elem_of_singleton.
Qed.

Lemma dijkstra_loop_simple (g : graph) fuel end_ seen queue c path dirs :
  Forall (settled_path seen) queue →
  dijkstra_loop fuel g end_ seen queue = Some (Finite c, path, dirs) →
  NoDup path.
Proof.
  revert seen queue. induction fuel as [|fuel IH]; intros seen queue Hall; simpl;
    [discriminate|].
  destruct (heappop queue) as [[[[[c0 node] path0] dirs0] q]|] eqn:Hpop;
    [|discriminate].
  destruct (decide (node ∈ seen)) as [Hin|Hnin].
  { apply IH. rewrite Forall_forall in Hall. apply Forall_forall. intros e He.
    apply Hall, (heappop_elem_of _ _ _ _ Hpop). by right. }
  destruct (decide (node = end_)) as [->|Hne].
  - intros [= <- <- <-]. rewrite Forall_forall in Hall.
    destruct (Hall (c0, end_, path0, dirs0)) as [Hnd Hsub].
    { apply (heappop_elem_of _ _ _ _ Hpop). by left. }
    apply NoDup_app. split_and!; [done| |apply NoDup_singleton].
    intros x Hx ->%list_elem_of_singleton. by apply Hnin, Hsub.
  - apply IH. by eapply settled_path_push.
Qed.

(** X3.  A route returned by [dijkstra] visits no node twice. *)
Theorem dijkstra_route_is_simple (g : graph) (start end_ : string) c path dirs :
  dijkstra g start end_ = Some (Finite c, path, dirs) → NoDup path.
Proof.
  apply dijkstra_loop_simple. apply Forall_singleton. split; [constructor|].
  intros x []%elem_of_nil.
Qed.

Lemma dijkstra_route_is_simple_witness : NoDup ["A"; "B"; "C"].
Proof.
  apply (dijkstra_route_is_simple two_edge_graph "A" "C" 10 _
           ["turn left"; "go straight"]).
  vm_compute. reflexivity.
Defined.

(** ** Graph construction *)

Lemma dict_get_set {V} (k k' : string) (v : V) (d : dict V) :
  dict_get k' (dict_set k v d) = if decide (k' = k) then Some v else dict_get k' d.
Proof.
  induction d as [|[k0 v0] d IH]; simpl.
  - by destruct (decide (k' = k)).
  - destruct (decide (k = k0)) as [->|Hne]; simpl.
    + by destruct (decide (k' = k0)).
    + rewrite IH. destruct (decide (k' = k0)) as [->|]; [|done].
      by rewrite decide_False by done.
Qed.

Lemma dict_set_keys {V} (k : string) (v : V) (d : dict V) (k' : string) :
  k' ∈ (dict_set k v d).*1 ↔ k' = k ∨ k' ∈ d.*1.
Proof.
  induction d as [|[k0 v0] d IH]; simpl.
  - rewrite list_elem_of_singleton, elem_of_nil. tauto.
  - destruct (decide (k = k0)) as [->|Hne]; simpl.
    + rewrite !elem_of_cons. tauto.
    + rewrite !elem_of_cons, IH. tauto.
Qed.

Lemma dict_set_wf {V} (k : string) (v : V) (d : dict V) :
  dict_wf d → dict_wf (dict_set k v d).
Proof.
  unfold dict_wf. induction d as [|[k0 v0] d IH]; simpl.
  - intros _. apply NoDup_singleton.
  - intros [Hk0 Hd]%NoDup_cons. destruct (decide (k = k0)) as [->|Hne]; simpl.
    + by apply NoDup_cons.
    + apply NoDup_cons. split; [|by apply IH].
      rewrite dict_set_keys. intros [?|?]; [congruence|done].
Qed.

Lemma dict_wf_elem_of {V} (d : dict V) (k : string) (v : V) :
  dict_wf d → (k, v) ∈ d ↔ dict_get k d = Some v.
Proof.
  unfold dict_wf. induction d as [|[k0 v0] d IH]; simpl.
  - intros _. rewrite elem_of_nil. by split.
  - intros [Hk0 Hd]%NoDup_cons. rewrite elem_of_cons, (IH Hd).
    destruct (decide (k = k0)) as [->|Hne].
    + split; [intros [[= ->]|Hget]; [done|]|intros [= ->]; by left].
      destruct Hk0. apply dict_get_elem_of in Hget.
      apply list_elem_of_fmap. by exists (k0, v).
    + split; [intros [[= -> ->]|?]; done|by right].
Qed.

Lemma dict_set_Forall {V} (P : string * V → Prop) (k : string) (v : V) (d : dict V) :
  P (k, v) → Forall P d → Forall P (dict_set k v d).
Proof.
  intros Hv. induction 1 as [|[k0 v0] d H0 Hd IH]; simpl.
  - by apply Forall_singleton.
  - destruct (decide (k = k0)); constructor; done.
Qed.

Lemma neighbors_wf (g : graph) (k : string) :
  Forall (λ kv, dict_wf kv.2) g → dict_wf (neighbors g k).
Proof.
  intros Hg. unfold neighbors.
  destruct (dict_get k g) as [adj|] eqn:Hk; [|apply NoDup_nil_2].
  apply dict_get_elem_of in Hk. rewrite Forall_forall in Hg. apply (Hg _ Hk).
Qed.

Section Graph.
Variable location_names : list string.
Variable connections : list relationship.

(** One iteration of the loop over the relationship rows. *)
#[local] Abbreviation add_connection :=
  (λ (graph : graph) (rel : relationship),
     let graph :=
       if dict_mem (source rel) graph then graph
       else dict_set (source rel) [] graph in
     dict_set (source rel)
       (dict_set (target rel)
          (EdgeProps (Some (rel_weight rel)) (Some (rel_direction rel)))
          (neighbors graph (source rel)))
       graph).

Lemma add_locations_get (names : list string) (g : graph) (k : string) :
  dict_get k (fold_left (λ graph name, dict_set name [] graph) names g)
  = if decide (k ∈ names) then Some [] else dict_get k g.
Proof.
  revert g. induction names as [|name names IH]; intros g.
  - destruct (decide (k ∈ [])) as [[]%elem_of_nil|]; done.
  - cbn [fold_left]. rewrite IH, dict_get_set.
    destruct (decide (k ∈ names)) as [Hin|Hnin].
    + rewrite decide_True; [done|by right].
    + destruct (decide (k = name)) as [->|Hne].
      * rewrite decide_True; [done|by left].
      * rewrite decide_False; [done|]. by intros [?|?]%elem_of_cons.
Qed.

Lemma add_connection_get (g : graph) (rel : relationship) (k : string) :
  dict_get k (add_connection g rel)
  = if decide (k = source rel)
    then Some (dict_set (target rel) (edge_of rel) (neighbors g (source rel)))
    else dict_get k g.
Proof.
  cbv beta zeta. unfold dict_mem, neighbors.
  destruct (dict_get (source rel) g) as [adj|] eqn:Hs; rewrite !dict_get_set.
  - by rewrite Hs.
  - destruct (decide (k = source rel)); [|done].
    by rewrite decide_True by done.
Qed.

Lemma add_connection_edge (g : graph) (rel : relationship) (s t : string) :
  dict_get t (neighbors (add_connection g rel) s)
  = if decide (source rel = s ∧ target rel = t) then Some (edge_of rel)
    else dict_get t (neighbors g s).
Proof.
  unfold neighbors at 1. rewrite add_connection_get.
  destruct (decide (s = source rel)) as [->|Hs]; simpl.
  - rewrite dict_get_set. destruct (decide (t = target rel)) as [->|Ht].
    + by rewrite decide_True by done.
    + rewrite decide_False; [done|]. by intros [_ ?].
  - rewrite decide_False; [done|]. by intros [? _].
Qed.

Lemma add_connections_edge (rels : list relationship) (g : graph) (s t : string) :
  dict_get t (neighbors (fold_left add_connection rels g) s)
  = match last_connection rels s t with
    | Some rel => Some (edge_of rel)
    | None => dict_get t (neighbors g s)
    end.
Proof.
  unfold last_connection. revert g.
  induction rels as [|rel rels IH]; intros g; [done|].
  cbn [fold_left]. rewrite IH, filter_cons, add_connection_edge.
  destruct (decide (source rel = s ∧ target rel = t)) as [Hm|Hm].
  - rewrite last_cons. by destruct (last _).
  - done.
Qed.

Lemma add_connections_mem (rels : list relationship) (g : graph) (k : string) :
  dict_mem k (fold_left add_connection rels g) = true ↔
  dict_mem k g = true ∨ ∃ rel, rel ∈ rels ∧ source rel = k.
Proof.
  revert g. induction rels as [|rel rels IH]; intros g.
  - split; [by left|]. intros [?|(? & []%elem_of_nil & _)]. done.
  - cbn [fold_left]. rewrite IH. unfold dict_mem at 1. rewrite add_connection_get.
    destruct (decide (k = source rel)) as [->|Hne].
    + split; [intros _|by left]. right. exists rel. split; [left|done].
    + fold (dict_mem k g). split.
      * intros [?|(r & Hr & <-)]; [by left|right]. exists r. split; [by right|done].
      * intros [?|(r & [->|Hr]%elem_of_cons & <-)]; [by left|done|right].
        by exists r.
Qed.

Lemma add_connection_wf (g : graph) (rel : relationship) :
  Forall (λ kv, dict_wf kv.2) g →
  Forall (λ kv, dict_wf kv.2) (add_connection g rel).
Proof.
  intros Hg. cbv beta zeta. destruct (dict_mem (source rel) g).
  - apply dict_set_Forall; [|done]. by apply dict_set_wf, neighbors_wf.
  - assert (Hg' : Forall (λ kv : string * dict edge_props, dict_wf kv.2)
                    (dict_set (source rel) [] g)).
    { apply dict_set_Forall; [apply NoDup_nil_2|done]. }
    apply dict_set_Forall; [|done]. by apply dict_set_wf, neighbors_wf.
Qed.

Lemma add_locations_wf (names : list string) (g : graph) :
  Forall (λ kv, dict_wf kv.2) g →
  Forall (λ kv, dict_wf kv.2)
    (fold_left (λ graph name, dict_set name [] graph) names g).
Proof.
  revert g. induction names as [|name names IH]; intros g Hg; [done|].
  apply IH. apply dict_set_Forall; [apply NoDup_nil_2|done].
Qed.

Lemma add_connections_wf (rels : list relationship) (g : graph) :
  Forall (λ kv, dict_wf kv.2) g →
  Forall (λ kv, dict_wf kv.2) (fold_left add_connection rels g).
Proof.
  revert g. induction rels as [|rel rels IH]; intros g Hg; [done|].
  apply IH. by apply add_connection_wf.
Qed.

Lemma build_graph_wf (s : string) :
  dict_wf (neighbors (build_graph_from_neo4j location_names connections) s).
Proof.
  apply neighbors_wf. unfold build_graph_from_neo4j. cbv zeta.
  apply add_connections_wf, add_locations_wf. constructor.
Qed.

(** X4.  The keys of the graph that [build_graph_from_neo4j] returns are
    the location names together with the sources of the connections: a
    node that occurs only as the target of connections is not a key. *)
Theorem build_graph_keys (k : string) :
  dict_mem k (build_graph_from_neo4j location_names connections) = true ↔
  k ∈ location_names ∨ ∃ rel, rel ∈ connections ∧ source rel = k.
Proof.
  unfold build_graph_from_neo4j. cbv zeta. rewrite add_connections_mem.
  unfold dict_mem at 1. rewrite add_locations_get.
  destruct (decide (k ∈ location_names)); simpl; [tauto|].
  split; [intros [[=]|?]; by right|intros [?|?]; [done|by right]].
Qed.

(** X5.  The outgoing edges that the built graph holds for a node are the
    connection rows with that source, one per target, and where several
    rows join the same two nodes the last row gives the weight and the
    instruction.  Every edge carries an explicit weight and instruction, so
    the defaults of the router never apply to a built graph. *)
Theorem build_graph_edges (s t : string) (props : edge_props) :
  (t, props) ∈ neighbors (build_graph_from_neo4j location_names connections) s ↔
  ∃ rel, last_connection connections s t = Some rel ∧ props = edge_of rel.
Proof.
  rewrite (dict_wf_elem_of _ _ _ (build_graph_wf s)).
  unfold build_graph_from_neo4j. cbv zeta. rewrite add_connections_edge.
  destruct (last_connection connections s t) as [rel|].
  - split; [intros [= <-]; by exists rel|by intros (? & [= <-] & ->)].
  - unfold neighbors. rewrite add_locations_get.
    split; [|by intros (? & [=] & _)].
    by destruct (decide (s ∈ location_names)).
Qed.



End Graph.

(** ** Running the handlers *)

Section Run.
Context {A B : Type}.
Implicit Types (w : world) (f : A → M B).

Lemma run_bind (m : M A) f w :
  (m ≫= f) w
  = match m w with (Ok a, w') => f a w' | (Raise e, w') => (Raise e, w') end.
Proof. reflexivity. Qed.

Lemma run_ret (a : A) f w : (mret a ≫= f) w = f a w.
Proof. reflexivity. Qed.

Lemma run_or_raise e (o : option A) a f w :
  o = Some a → (or_raise e o ≫= f) w = f a w.
Proof. by intros ->. Qed.

Lemma run_or_raise_none e (o : option A) f w :
  o = None → (or_raise e o ≫= f) w = (Raise e, w).
Proof. by intros ->. Qed.

Lemma run_read user_id (h : session → A) f w s :
  user_sessions w !! user_id = Some s →
  (session_read user_id h ≫= f) w = f (h s) w.
Proof. intros Hs. rewrite run_bind. unfold session_read. by rewrite Hs. Qed.

End Run.

Lemma run_record {B} c (f : unit → M B) w :
  (record_call c ≫= f) w = f tt (World (user_sessions w) (calls w ++ [c])).
Proof. reflexivity. Qed.

Lemma run_ensure {B} user_id (f : unit → M B) w s :
  user_sessions w !! user_id = Some s → (ensure_session user_id ≫= f) w = f tt w.
Proof. intros Hs. rewrite run_bind. unfold ensure_session. by rewrite Hs. Qed.

Lemma run_ensure_new {B} user_id (f : unit → M B) w :
  user_sessions w !! user_id = None →
  (ensure_session user_id ≫= f) w
  = f tt (World (<[user_id := new_session]> (user_sessions w)) (calls w)).
Proof. intros Hs. rewrite run_bind. unfold ensure_session. by rewrite Hs. Qed.

Lemma run_write {B} user_id (h : session → session) (f : unit → M B) w s :
  user_sessions w !! user_id = Some s →
  (session_write user_id h ≫= f) w
  = f tt (World (<[user_id := h s]> (user_sessions w)) (calls w)).
Proof. intros Hs. rewrite run_bind. unfold session_write. by rewrite Hs. Qed.

Lemma lookup_stored (m : gmap string session) user_id s c :
  user_sessions (World (<[user_id := s]> m) c) !! user_id = Some s.
Proof. apply lookup_insert_eq. Qed.

Lemma lookup_logged w user_id c :
  user_sessions (World (user_sessions w) c) !! user_id = user_sessions w !! user_id.
Proof. reflexivity. Qed.

Lemma stored_twice (m : gmap string session) user_id s1 s2 c c' :
  World (<[user_id := s2]> (user_sessions (World (<[user_id := s1]> m) c))) c'
  = World (<[user_id := s2]> m) c'.
Proof. simpl. by rewrite insert_insert_eq. Qed.

Ltac session_lookup :=
  first [ eassumption | apply lookup_stored | (rewrite lookup_logged; session_lookup) ].

(** Runs the leading session and trace operations of a handler. *)
Ltac run :=
  repeat first
    [ rewrite run_ret
    | rewrite run_record
    | erewrite run_ensure by session_lookup
    | erewrite run_read by session_lookup
    | erewrite run_write by session_lookup ].

Lemma index_nat {A} (l : list A) (n : nat) : Py.index l (Z.of_nat n) = l !! n.
Proof.
  unfold Py.index. rewrite decide_True by lia. by rewrite Nat2Z.id.
Qed.


Lemma upper_nonempty (s : string) : s ≠ EmptyString → Py.upper s ≠ EmptyString.
Proof. by destruct s. Qed.

(** ** Handlers that do not classify *)

Lemma quiet_ret {A} (a : A) : quiet (mret a).
Proof. intros w. exists []. by rewrite app_nil_r. Qed.

Lemma quiet_raise {A} e : quiet (@raise A e).
Proof. intros w. exists []. by rewrite app_nil_r. Qed.

Lemma quiet_or_raise {A} e (o : option A) : quiet (or_raise e o).
Proof. destruct o; [apply quiet_ret|apply quiet_raise]. Qed.

Lemma quiet_read {A} user_id (h : session → A) : quiet (session_read user_id h).
Proof.
  intros w. exists []. rewrite app_nil_r. unfold session_read.
  by destruct (user_sessions w !! user_id).
Qed.

Lemma quiet_write user_id h : quiet (session_write user_id h).
Proof.
  intros w. exists []. rewrite app_nil_r. unfold session_write.
  by destruct (user_sessions w !! user_id).
Qed.

Lemma quiet_ensure user_id : quiet (ensure_session user_id).
Proof.
  intros w. exists []. rewrite app_nil_r. unfold ensure_session.
  by destruct (user_sessions w !! user_id).
Qed.

Lemma quiet_record c : is_classify c = false → quiet (record_call c).
Proof. intros Hc w. exists [c]. split; [done|]. by apply Forall_singleton. Qed.

Lemma quiet_bind {A B} (m : M A) (f : A → M B) :
  quiet m → (∀ a, quiet (f a)) → quiet (m ≫= f).
Proof.
  intros Hm Hf w. rewrite run_bind. destruct (Hm w) as (l1 & H1 & Hl1).
  destruct (m w) as [[a|e] w1]; simpl in H1.
  - destruct (Hf a w1) as (l2 & H2 & Hl2). exists (l1 ++ l2).
    split; [by rewrite H2, H1, app_assoc|by apply Forall_app].
  - by exists l1.
Qed.

(** Decomposes a handler into its operations. *)
Ltac quiet_steps :=
  repeat first
    [ apply quiet_ret | apply quiet_raise | apply quiet_or_raise
    | apply quiet_read | apply quiet_write | apply quiet_ensure
    | (apply quiet_record; reflexivity)
    | (apply quiet_bind; [|intros ?])
    | case_match | case_decide ].

Lemma handle_navigation_quiet location_names connections d user_id :
  quiet (handle_navigation location_names connections d user_id).
Proof. unfold handle_navigation. quiet_steps. Qed.

(** States a goal about the calls of [m w] as [quiet m]. *)
Ltac by_quiet :=
  lazymatch goal with
  | |- ∃ l, calls (?m ?w).2 = _ ∧ _ =>
      let Hq := fresh "Hq" in
      assert (Hq : quiet m);
      [ repeat first [ apply handle_navigation_quiet | progress quiet_steps ]
      | destruct (Hq w) as (l & Hl & Hall); exists l; split; [|exact Hall];
        rewrite Hl; cbn [calls]; by rewrite <- ?app_assoc ]
  end.

(** ** The dialog controller: main results *)

Section Dialog.
Variable cosine_similarity : string → string → Q.
Variable nlp : string → doc.
Variable location_names : list string.
Variable connections : list relationship.
Variable find_teacher_by_name : string → list teacher.

#[local] Abbreviation chat' :=
  (chat cosine_similarity nlp location_names connections find_teacher_by_name).



#[local] Abbreviation handle_navigation' :=
  (handle_navigation location_names connections).
#[local] Abbreviation campus_graph :=
  (build_graph_from_neo4j location_names connections).


Lemma handle_navigation_unreachable (d : doc) (user_id : string) (w : world)
    (start_node end_node : string) :
  endpoints (tokens d) (location_entities d) = (Some start_node, Some end_node) →
  start_node ≠ EmptyString → end_node ≠ EmptyString →
  dict_mem start_node campus_graph = true →
  dict_mem end_node campus_graph = true →
  ¬ reachable campus_graph start_node end_node →
  handle_navigation' d user_id w
  = (Ok ("I'm sorry, I couldn't find a path from " +:+ start_node +:+
         " to " +:+ end_node +:+ "."),
     World (user_sessions w) (calls w ++ [FetchGraph])).
Proof.
  intros He Hs Ht Hm1 Hm2 Hno. unfold handle_navigation. rewrite He.
  destruct start_node as [|a start_node]; [done|].
  destruct end_node as [|b end_node]; [done|].
  run. rewrite Hm1, Hm2. cbn [negb orb].
  erewrite run_or_raise by (by apply dijkstra_unreachable). done.
Qed.

Lemma handle_navigation_same_node (d : doc) (user_id : string) (w : world)
    (s : session) (node : string) :
  endpoints (tokens d) (location_entities d) = (Some node, Some node) →
  node ≠ EmptyString →
  dict_mem node campus_graph = true →
  user_sessions w !! user_id = Some s →
  handle_navigation' d user_id w
  = (Raise IndexError,
     World (<[user_id := set_current_step 0 (set_directions [] (set_path [node]
                           (set_state navigation_confirm s)))]> (user_sessions w))
       (calls w ++ [FetchGraph])).
Proof.
  intros He Hn Hm Hs. unfold handle_navigation. rewrite He.
  destruct node as [|a node]; [done|].
  run. rewrite Hm. cbn [negb orb].
  erewrite run_or_raise by apply dijkstra_same_node. cbv beta iota.
  run. rewrite !stored_twice.
  by erewrite run_or_raise_none by done.
Qed.

(** C5.  When no node sequence leads from the start node to the end node
    along edges of the graph, [dijkstra] returns infinite cost with an empty
    node sequence and an empty instruction sequence (whether or not the two
    nodes are keys of the graph); and when both resolved locations are keys
    of the campus graph, the navigation handler then replies that it could
    not find a path and leaves every session as it was. *)
Theorem unreachable_end_node :
  (∀ (g : graph) (start end_ : string),
     ¬ reachable g start end_ →
     dijkstra g start end_ = Some (Infinity, [], [])) ∧
  (∀ (d : doc) (user_id : string) (w : world) (start_node end_node : string),
     endpoints (tokens d) (location_entities d) = (Some start_node, Some end_node) →
     start_node ≠ EmptyString → end_node ≠ EmptyString →
     dict_mem start_node campus_graph = true →
     dict_mem end_node campus_graph = true →
     ¬ reachable campus_graph start_node end_node →
     ∃ w',
       handle_navigation' d user_id w
       = (Ok ("I'm sorry, I couldn't find a path from " +:+ start_node +:+
              " to " +:+ end_node +:+ "."), w') ∧
       user_sessions w' = user_sessions w).
Proof.
  split; [apply dijkstra_unreachable|].
  intros d user_id w start_node end_node He Hs Ht Hm1 Hm2 Hno.
  eexists. split; [by apply handle_navigation_unreachable|done].
Qed.

(** C2 (the code departs from it).  A navigation request whose two
    resolved locations are the same key of the campus graph does not yield a
    reply: the router returns the single-node route, the handler stores it
    and moves the session to [navigation_confirm], and then reads the first
    instruction of an empty instruction list, which raises [IndexError]. *)
Theorem navigation_to_same_node_raises (w : world) (data : request)
    (s : session) (node : string) :
  let user_id := default "default_user" (req_user_id data) in
  let message := Py.strip (default "" (req_message data)) in
  user_sessions w !! user_id = Some s →
  s_state s = idle →
  get_intent cosine_similarity message = "navigate" →
  endpoints (tokens (nlp message)) (location_entities (nlp message))
  = (Some node, Some node) →
  node ≠ EmptyString →
  dict_mem node campus_graph = true →
  chat' data w
  = (Raise IndexError,
     World (<[user_id := set_current_step 0 (set_directions [] (set_path [node]
                           (set_state navigation_confirm s)))]> (user_sessions w))
       (calls w ++ [Classify message; Parse message; FetchGraph])).
Proof.
  intros user_id message Hs Hst Hint He Hn Hm.
  unfold chat. fold user_id message. run. rewrite Hst. run. rewrite Hint.
  rewrite !decide_False by done. rewrite decide_True by done.
  erewrite handle_navigation_same_node by (done || session_lookup).
  cbn [user_sessions calls]. by rewrite <- !app_assoc.
Qed.

Lemma handle_navigation_unresolved (d : doc) (user_id : string) (w : world) :
  ¬ (∃ a start_node b end_node,
       endpoints (tokens d) (location_entities d)
       = (Some (String a start_node), Some (String b end_node))) →
  handle_navigation' d user_id w
  = (Ok ("I can help with navigation. Please tell me where you are starting " +:+
         "from and where you want to go, for example: " +:+
         "'Navigate from AB1-101 to AB2-205'."), w).
Proof.
  intros Hno. unfold handle_navigation.
  destruct (endpoints (tokens d) (location_entities d)) as [[[|a s1]|] [[|b s2]|]];
    try done.
  destruct Hno. by eexists _, _, _, _.
Qed.



(** C9.  When the state that [chat] finds for the user is
    [navigation_confirm], [teacher_selection] or
    [navigate_to_teacher_confirm], handling the message makes no call to the
    classifier, and the outcome does not depend on the similarity measure at
    all; when the state is [idle] (also for a user seen for the first time)
    the first call made is the classification of the stripped message, and
    it is the only classification. *)
Theorem classification_only_when_idle (w : world) (data : request) :
  let user_id := default "default_user" (req_user_id data) in
  let message := Py.strip (default "" (req_message data)) in
  (state_of w user_id ≠ idle →
   (∃ l, calls (chat' data w).2 = calls w ++ l ∧
         Forall (λ c, is_classify c = false) l) ∧
   ∀ similarity',
     chat similarity' nlp location_names connections find_teacher_by_name data w
     = chat' data w) ∧
  (state_of w user_id = idle →
   ∃ l, calls (chat' data w).2 = calls w ++ Classify message :: l ∧
        Forall (λ c, is_classify c = false) l).
Proof.
  intros user_id message. unfold state_of.
  destruct (user_sessions w !! user_id) as [s|] eqn:Hs; split.
  - intros Hst. split.
    + unfold chat. fold user_id message. run.
      destruct (s_state s); [done|..]; by_quiet.
    + intros similarity'. unfold chat. fold user_id message. run.
      by destruct (s_state s).
  - intros Hst. unfold chat. fold user_id message.
    erewrite run_ensure, run_read by session_lookup. rewrite Hst, run_record.
    by_quiet.
  - done.
  - intros _. unfold chat. fold user_id message.
    erewrite run_ensure_new by done. erewrite run_read by session_lookup.
    cbn [s_state new_session]. rewrite run_record.
    by_quiet.
Qed.

End Dialog.

(** ** The intent classifier *)

Lemma Qgtb_true (a b : Q) : Qgtb a b = true ↔ (b < a)%Q.
Proof.
  unfold Qgtb. rewrite negb_true_iff, <- not_true_iff_false, Qle_bool_iff.
  split; [apply Qnot_le_lt|apply Qlt_not_le].
Qed.

Lemma Qgtb_false (a b : Q) : Qgtb a b = false ↔ (a <= b)%Q.
Proof. unfold Qgtb. by rewrite negb_false_iff, Qle_bool_iff. Qed.

Lemma scan_table_app score t1 t2 acc :
  scan_table score (t1 ++ t2) acc = scan_table score t2 (scan_table score t1 acc).
Proof. apply fold_left_app. Qed.

Lemma scan_table_cons score intent phrase table acc :
  scan_table score ((intent, phrase) :: table) acc
  = scan_table score table (scan_phrase score intent acc phrase).
Proof. reflexivity. Qed.

Lemma scan_phrases score intent phrases acc :
  fold_left (scan_phrase score intent) phrases acc
  = scan_table score ((λ phrase, (intent, phrase)) <$> phrases) acc.
Proof.
  revert acc. induction phrases as [|p phrases IH]; intros acc; [done|]. apply IH.
Qed.

Lemma scan_knowledge_base score (kb : dict (list string)) acc :
  fold_left (λ acc '(intent, phrases), fold_left (scan_phrase score intent) phrases acc)
    kb acc
  = scan_table score
      (kb ≫= λ '(intent, phrases), (λ phrase, (intent, phrase)) <$> phrases) acc.
Proof.
  revert acc. induction kb as [|[intent phrases] kb IH]; intros acc; [done|].
  cbn [fold_left mbind list_bind]. rewrite scan_table_app, IH. by rewrite scan_phrases.
Qed.

Lemma get_intent_scan cosine_similarity user_input :
  get_intent cosine_similarity user_input
  = let '(max_similarity, best_intent) :=
      scan_table (cosine_similarity (Py.lower user_input)) phrase_table
        (0%Q, "unknown") in
    if Qgtb max_similarity threshold then best_intent else "unknown".
Proof. unfold get_intent. by rewrite scan_knowledge_base. Qed.

(** The scan returns its initial state or the score and intent of a table
    entry. *)
Lemma scan_table_origin score table acc :
  scan_table score table acc = acc ∨
  ∃ intent phrase, (intent, phrase) ∈ table ∧
    scan_table score table acc = (score phrase, intent).
Proof.
  revert acc. induction table as [|[i p] table IH]; intros [m b]; [by left|].
  rewrite scan_table_cons.
  destruct (IH (scan_phrase score i (m, b) p)) as [->|(i' & p' & Hin & ->)].
  - unfold scan_phrase. destruct (Qgtb (score p) m); [right|by left].
    exists i, p. split; [left|done].
  - right. exists i', p'. split; [by right|done].
Qed.

(** Scores that do not exceed the running maximum leave it in place. *)
Lemma scan_table_keep score table m b :
  (∀ intent phrase, (intent, phrase) ∈ table → (score phrase <= m)%Q) →
  scan_table score table (m, b) = (m, b).
Proof.
  induction table as [|[i p] table IH]; intros Hle; [done|].
  rewrite scan_table_cons. unfold scan_phrase. rewrite (proj2 (Qgtb_false _ _)) by (apply (Hle i); left).
  apply IH. intros i' p' Hin. apply (Hle i'). by right.
Qed.

Lemma threshold_pos : (0 < threshold)%Q.
Proof. reflexivity. Qed.

(** C8.  [get_intent] compares the lower-cased text with every example
    phrase.  If no similarity exceeds the threshold (the literal 0.3), the
    result is "unknown".  If the largest similarity exceeds the threshold,
    the result is the intent that owns the first phrase, in the order of
    the knowledge base, that reaches this largest similarity. *)
Theorem get_intent_decision (cosine_similarity : string → string → Q)
    (user_input : string) :
  let score := cosine_similarity (Py.lower user_input) in
  ((∀ intent phrase, (intent, phrase) ∈ phrase_table →
      (score phrase <= threshold)%Q) →
   get_intent cosine_similarity user_input = "unknown") ∧
  (∀ k intent phrase,
     phrase_table !! k = Some (intent, phrase) →
     (threshold < score phrase)%Q →
     (∀ j intent' phrase', phrase_table !! j = Some (intent', phrase') →
        (score phrase' <= score phrase)%Q) →
     (∀ j intent' phrase', (j < k)%nat →
        phrase_table !! j = Some (intent', phrase') →
        (score phrase' < score phrase)%Q) →
     get_intent cosine_similarity user_input = intent).
Proof.
  intros score. split.
  - intros Hle. rewrite get_intent_scan. fold score.
    destruct (scan_table_origin score phrase_table (0%Q, "unknown"))
      as [->|(i & p & Hin & ->)].
    + by destruct (Qgtb 0 threshold).
    + by rewrite (proj2 (Qgtb_false _ _)) by by eapply Hle.
  - intros k intent phrase Hk Hgt Hmax Hfirst.
    rewrite get_intent_scan. fold score.
    rewrite <- (take_drop_middle _ _ _ Hk), scan_table_app, scan_table_cons.
    assert (Hbefore : ∃ m b,
      scan_table score (take k phrase_table) (0%Q, "unknown") = (m, b) ∧
      (m < score phrase)%Q) .
    { destruct (scan_table_origin score (take k phrase_table) (0%Q, "unknown"))
        as [->|(i & p & Hin & ->)].
      - eexists _, _. split; [done|].
        eapply Qlt_trans; [apply threshold_pos|done].
      - eexists _, _. split; [done|].
        apply elem_of_take in Hin as (j & Hj & Hlt). by eapply Hfirst. }
    destruct Hbefore as (m & b & -> & Hm).
    unfold scan_phrase at 1. rewrite (proj2 (Qgtb_true _ _)) by done.
    rewrite scan_table_keep.
    + by rewrite (proj2 (Qgtb_true _ _)) by done.
    + intros i p [j Hj]%list_elem_of_lookup. rewrite lookup_drop in Hj.
      by eapply Hmax.
Qed.

(** ** The intent classifier: what a result means *)

Lemma scan_table_upper score table m0 b0 :
  (m0 <= (scan_table score table (m0, b0)).1)%Q ∧
  ∀ intent phrase, (intent, phrase) ∈ table →
    (score phrase <= (scan_table score table (m0, b0)).1)%Q.
Proof.
  revert m0 b0. induction table as [|[i p] table IH]; intros m0 b0.
  { split; [apply Qle_refl|]. intros ? ? []%elem_of_nil. }
  rewrite scan_table_cons. unfold scan_phrase.
  destruct (Qgtb (score p) m0) eqn:Hgt.
  - destruct (IH (score p) i) as [Hm Hall]. apply Qgtb_true in Hgt. split.
    + eapply Qle_trans; [by apply Qlt_le_weak|done].
    + intros i' p' [[= -> ->]|Hin]%elem_of_cons; [done|by eapply Hall].
  - destruct (IH m0 b0) as [Hm Hall]. apply Qgtb_false in Hgt. split; [done|].
    intros i' p' [[= -> ->]|Hin]%elem_of_cons; [|by eapply Hall].
    by eapply Qle_trans.
Qed.

Lemma phrase_table_intent intent phrase :
  (intent, phrase) ∈ phrase_table → intent ∈ knowledge_base.*1.
Proof.
  unfold phrase_table. intros ([i ps] & Hin & Hkb)%list_elem_of_bind.
  apply list_elem_of_fmap in Hin as (p & [= -> ->] & _).
  apply list_elem_of_fmap. by exists (i, ps).
Qed.

(** X6.  [get_intent] answers "unknown" or one of the six intents of the
    knowledge base; and when it answers an intent, one of the example
    phrases of that intent has a similarity to the lower-cased text that
    exceeds the threshold and is not exceeded by any other example phrase. *)
Theorem get_intent_sound (cosine_similarity : string → string → Q)
    (user_input : string) :
  let score := cosine_similarity (Py.lower user_input) in
  let intent := get_intent cosine_similarity user_input in
  intent = "unknown" ∨
  intent ∈ knowledge_base.*1 ∧
  ∃ phrase, (intent, phrase) ∈ phrase_table ∧
    (threshold < score phrase)%Q ∧
    ∀ intent' phrase', (intent', phrase') ∈ phrase_table →
      (score phrase' <= score phrase)%Q.
Proof.
  intros score intent. subst intent. rewrite get_intent_scan. fold score.
  pose proof (scan_table_upper score phrase_table 0%Q "unknown") as [_ Hmax].
  destruct (scan_table_origin score phrase_table (0%Q, "unknown"))
    as [Heq|(i & p & Hin & Heq)]; rewrite Heq in *; simpl in Hmax.
  - left. by destruct (Qgtb 0 threshold).
  - destruct (Qgtb (score p) threshold) eqn:Hgt; [right|by left].
    split; [by eapply phrase_table_intent|].
    exists p. split_and!; [done|by apply Qgtb_true|done].
Qed.

(** ** Session invariant *)

Section Triples.
Context {A : Type} (user_id : string).
Implicit Types (P E : session → Prop) (Q : A → session → Prop).

Lemma triple_ret P Q E (a : A) :
  (∀ s, P s → Q a s) → triple user_id P (mret a) Q E.
Proof. intros HQ w s Hs HP. exists s. split; [by rewrite insert_id|by apply HQ]. Qed.

Lemma triple_or_raise P E e (o : option A) :
  (∀ s, P s → o = None → E s) →
  triple user_id P (or_raise e o) (λ a s, P s ∧ o = Some a) E.
Proof.
  intros HE w s Hs HP. exists s. split; [by destruct o; rewrite insert_id|].
  destruct o; simpl; auto.
Qed.

Lemma triple_read P E (h : session → A) :
  triple user_id P (session_read user_id h) (λ a s, P s ∧ a = h s) E.
Proof.
  intros w s Hs HP. exists s. unfold session_read. rewrite Hs.
  split; [by rewrite insert_id|done].
Qed.

Lemma triple_weaken P P' Q Q' E E' (m : M A) :
  triple user_id P' m Q' E' →
  (∀ s, P s → P' s) → (∀ a s, Q' a s → Q a s) → (∀ s, E' s → E s) →
  triple user_id P m Q E.
Proof.
  intros Hm HP HQ HE w s Hs Hpre. destruct (Hm w s Hs (HP _ Hpre)) as (s' & ? & Hpost).
  exists s'. split; [done|]. destruct ((m w).1); auto.
Qed.

End Triples.

Lemma triple_write user_id P E (h : session → session) :
  triple user_id P (session_write user_id h) (λ _ s', ∃ s, P s ∧ s' = h s) E.
Proof.
  intros w s Hs HP. exists (h s). unfold session_write. rewrite Hs.
  split; [done|by exists s].
Qed.

Lemma triple_record user_id P E c :
  triple user_id P (record_call c) (λ _ s, P s) E.
Proof. intros w s Hs HP. exists s. split; [by simpl; rewrite insert_id|done]. Qed.

Lemma triple_bind {A B} user_id P (R : A → session → Prop) Q E
    (m : M A) (f : A → M B) :
  triple user_id P m R E → (∀ a, triple user_id (R a) (f a) Q E) →
  triple user_id P (m ≫= f) Q E.
Proof.
  intros Hm Hf w s Hs HP. rewrite run_bind.
  destruct (Hm w s Hs HP) as (s1 & Hw1 & Hpost).
  destruct (m w) as [[a|e] w1]; simpl in *.
  - destruct (Hf a w1 s1) as (s2 & Hw2 & Hpost2);
      [by rewrite Hw1, lookup_insert_eq|done|].
    exists s2. split; [|done]. by rewrite Hw2, Hw1, insert_insert_eq.
  - by exists s1.
Qed.

(** A reply, returned with the session as the precondition describes it. *)
Ltac triple_ret := apply triple_ret; intros ?; try tauto.

Lemma started_session_ok (g : graph) start end_ c node path directions s :
  dijkstra g start end_ = Some (c, node :: path, directions) →
  session_ok (set_current_step 0 (set_directions directions
                (set_path (node :: path) (set_state navigation_confirm s)))).
Proof.
  intros Hd. split_and!; [|by intros [=]..]. intros _.
  exists (node :: path), directions, 0. split_and!; [done..|].
  destruct (dijkstra_sound _ _ _ _ Hd) as [[=]|(c0 & p0 & d0 & Heq & Hw)].
  simplify_eq. by destruct (walk_shape _ _ _ _ _ _ Hw) as (? & _).
Qed.

Lemma handle_navigation_ok (G : Prop) location_names connections d user_id :
  triple user_id (λ s, G → session_ok s)
    (handle_navigation location_names connections d user_id)
    (λ _ s, G → session_ok s) (λ s, G → session_ok s).
Proof.
  unfold handle_navigation.
  destruct (endpoints (tokens d) (location_entities d))
    as [[[|a start_node]|] [[|b end_node]|]]; try triple_ret.
  eapply triple_bind; [apply triple_record|intros []].
  case_match; [triple_ret|].
  eapply triple_bind; [by apply triple_or_raise|intros [[c path] directions]].
  destruct path as [|node path]; [triple_ret|].
  do 4 (eapply triple_bind; [apply triple_write|intros []]).
  assert (Hok : ∀ s',
    (∃ s3, (∃ s2, (∃ s1, (∃ s0,
       ((G → session_ok s0) ∧
        dijkstra (build_graph_from_neo4j location_names connections)
          (String a start_node) (String b end_node)
        = Some (c, node :: path, directions)) ∧
       s1 = set_state navigation_confirm s0) ∧
       s2 = set_path (node :: path) s1) ∧
       s3 = set_directions directions s2) ∧
       s' = set_current_step 0 s3) →
    session_ok s').
  { intros s' (s3 & (s2 & (s1 & (s0 & [_ Hd] & ->) & ->) & ->) & ->).
    by eapply started_session_ok. }
  eapply triple_bind; [apply triple_or_raise; auto|intros first_direction].
  eapply triple_bind; [apply triple_or_raise; intros ? [? _]; auto|
                       intros first_destination].
  apply triple_ret. intros ? [[? _] _]. auto.
Qed.

Lemma triple_ensure user_id P E :
  triple user_id P (ensure_session user_id) (λ _ s, P s) E.
Proof.
  intros w s Hs HP. exists s. unfold ensure_session. rewrite Hs.
  split; [by rewrite insert_id|done].
Qed.

Lemma idle_session_ok s : session_ok (set_state idle s).
Proof. by split_and!; intros [=]. Qed.

Lemma offer_session_ok c s :
  session_ok (set_teacher_cabin c (set_state navigate_to_teacher_confirm s)).
Proof. split_and!; [by intros [=]| |by intros [=]]. by eexists. Qed.

Lemma selection_session_ok ts s :
  session_ok (set_teachers ts (set_state teacher_selection s)).
Proof. split_and!; [by intros [=]..|]. by eexists. Qed.

Lemma advanced_session_ok s k :
  session_ok s → s_state s = navigation_confirm → s_current_step s = Some k →
  session_ok (set_current_step (k + 1) s).
Proof.
  intros (Hnav & Hoffer & Hsel) Hst Hk.
  destruct (Hnav Hst) as (p & d & k' & _ & Hp & Hd & Hk' & Hk0 & Hlen).
  split_and!; [|done..]. intros _. exists p, d, (k + 1).
  split_and!; [done..| |done]. simplify_eq. lia.
Qed.

(** One step through a handler: a rule for its head operation. *)
Ltac triple_step :=
  lazymatch goal with
  | |- triple _ _ (mret _) _ _ => apply triple_ret; intros ?
  | |- triple _ _ (handle_navigation _ _ _ _) _ (λ s, ?G → session_ok s) =>
      eapply triple_weaken; [apply (handle_navigation_ok G)|intros ?|done|done]
  | |- triple _ _ (_ ≫= _) _ _ =>
      eapply triple_bind;
      [ first [ apply triple_ensure | apply triple_read | apply triple_write
              | apply triple_record | apply triple_or_raise; intros ? ]
      | intros ? ]
  | |- triple _ _ (if decide _ then _ else _) _ _ => case_decide
  | |- triple _ _ (if _ then _ else _) _ _ => case_match
  | |- triple _ _ (match _ with _ => _ end) _ _ => case_match
  end.

Section Invariant.
Variable cosine_similarity : string → string → Q.
Variable nlp : string → doc.
Variable location_names : list string.
Variable connections : list relationship.
Variable find_teacher_by_name : string → list teacher.

Lemma chat_ok (G : Prop) (data : request) :
  triple (default "default_user" (req_user_id data)) (λ s, G → session_ok s)
    (chat cosine_similarity nlp location_names connections find_teacher_by_name data)
    (λ _ s, G → session_ok s) (λ s, G → session_ok s).
Proof.
  unfold chat. repeat triple_step.
  all: intros;
    repeat match goal with
      | H : _ ∧ _ |- _ => destruct H
      | H : ∃ _, _ |- _ => destruct H
      | H : _ = s_state _ |- _ => symmetry in H
      end;
    simplify_eq;
    eauto using idle_session_ok, offer_session_ok, selection_session_ok,
      advanced_session_ok.
Qed.

Lemma chat_new_user (data : request) (w : world) :
  let user_id := default "default_user" (req_user_id data) in
  user_sessions w !! user_id = None →
  chat cosine_similarity nlp location_names connections find_teacher_by_name data w
  = chat cosine_similarity nlp location_names connections find_teacher_by_name data
      (World (<[user_id := new_session]> (user_sessions w)) (calls w)).
Proof.
  intros user_id Hnew. unfold chat. fold user_id.
  erewrite run_ensure_new by done. by erewrite run_ensure by apply lookup_stored.
Qed.

(** Every request leaves the sessions of the other users alone and keeps
    every session well formed, whether it ends in a reply or in an
    exception. *)
Lemma chat_keeps_sessions_ok (data : request) (w : world) :
  let user_id := default "default_user" (req_user_id data) in
  let w' :=
    (chat cosine_similarity nlp location_names connections find_teacher_by_name
       data w).2 in
  (∀ other, other ≠ user_id → user_sessions w' !! other = user_sessions w !! other) ∧
  (world_ok w → world_ok w').
Proof.
  intros user_id w'.
  assert (Hupd : ∃ s', user_sessions w' = <[user_id := s']> (user_sessions w) ∧
                       (world_ok w → session_ok s')).
  { subst w'. destruct (user_sessions w !! user_id) as [s|] eqn:Hs.
    - destruct (chat_ok (world_ok w) data w s Hs) as (s' & Hw' & Hpost).
      { intros Hw. by eapply Hw. }
      exists s'. split; [done|]. by destruct (chat _ _ _ _ _ _ _).1.
    - rewrite chat_new_user by done.
      destruct (chat_ok (world_ok w) data
                  (World (<[user_id := new_session]> (user_sessions w)) (calls w))
                  new_session (lookup_stored _ _ _ _)) as (s' & Hw' & Hpost).
      { intros _. by split_and!; intros [=]. }
      exists s'. cbn [user_sessions] in Hw'. rewrite insert_insert_eq in Hw'.
      split; [done|]. by destruct (chat _ _ _ _ _ _ _).1. }
  destruct Hupd as (s' & Hw' & Hs'). split.
  - intros other Hne. by rewrite Hw', lookup_insert_ne.
  - intros Hw other s. rewrite Hw'.
    destruct (decide (user_id = other)) as [<-|Hne].
    + rewrite lookup_insert_eq. intros [= <-]. auto.
    + rewrite lookup_insert_ne by done. apply Hw.
Qed.

(** Every store reached from the empty one is well formed: a session in
    [navigation_confirm] holds a route whose node sequence is one longer
    than its instruction sequence, with a step index that is not negative. *)
Lemma served_world_ok (requests : list request) :
  world_ok
    (serve (chat cosine_similarity nlp location_names connections
              find_teacher_by_name) requests (World ∅ [])).
Proof.
  unfold serve.
  assert (Hinit : world_ok (World ∅ [])).
  { intros user_id s Hs. cbn [user_sessions] in Hs. by rewrite lookup_empty in Hs. }
  revert Hinit. generalize (World ∅ []).
  induction requests as [|data requests IH]; intros w Hw; [done|].
  apply IH. by apply chat_keeps_sessions_ok.
Qed.

End Invariant.

(** ** The dialog controller: what every request preserves *)

Lemma idle_session_inv g s : session_inv g (set_state idle s).
Proof. by split_and!; intros [=]. Qed.

Lemma offer_session_inv g c s :
  session_inv g (set_teacher_cabin c (set_state navigate_to_teacher_confirm s)).
Proof. split_and!; [by intros [=]| |by intros [=]]. by eexists. Qed.

Lemma selection_session_inv g t1 t2 ts s :
  session_inv g (set_teachers (t1 :: t2 :: ts) (set_state teacher_selection s)).
Proof.
  split_and!; [by intros [=]..|]. intros _. eexists. split; [done|]. simpl. lia.
Qed.

Lemma advanced_session_inv g s k :
  session_inv g s → s_state s = navigation_confirm →
  s_current_step s = Some k →
  default 0 (s_current_step s) < Z.of_nat (length (default [] (s_path s))) - 1 →
  session_inv g (set_current_step (k + 1) s).
Proof.
  intros (Hnav & Hoffer & Hsel) Hst Hk Hlt.
  destruct (Hnav Hst) as (p & d & k' & edges & Hp & Hd & Hk' & Hk0 & Hf & Hdirs).
  split_and!; [|done..]. intros _. exists p, d, (k + 1), edges.
  rewrite Hp, Hk in Hlt. simpl in Hlt. simplify_eq. split_and!; try done; lia.
Qed.

Lemma started_session_inv (g : graph) start end_ c node path directions s :
  dijkstra g start end_ = Some (c, node :: path, directions) →
  session_inv g (set_current_step 0 (set_directions directions
                   (set_path (node :: path) (set_state navigation_confirm s)))).
Proof.
  intros Hd. split_and!; [|by intros [=]..]. intros _.
  destruct (dijkstra_sound _ _ _ _ Hd) as [[=]|(c0 & p0 & d0 & Heq & Hw)].
  simplify_eq.
  destruct (walk_follows _ _ _ _ _ _ Hw) as (edges & _ & _ & Hf & _ & Hdirs).
  eexists _, _, 0, edges.
  split_and!; [reflexivity..| | |done|done]; simpl; lia.
Qed.

Lemma handle_navigation_inv (G : Prop) location_names connections d user_id :
  triple user_id
    (λ s, G → session_inv (build_graph_from_neo4j location_names connections) s)
    (handle_navigation location_names connections d user_id)
    (λ _ s, G → session_inv (build_graph_from_neo4j location_names connections) s)
    (λ s, G → session_inv (build_graph_from_neo4j location_names connections) s).
Proof.
  unfold handle_navigation.
  destruct (endpoints (tokens d) (location_entities d))
    as [[[|a start_node]|] [[|b end_node]|]]; try triple_ret.
  eapply triple_bind; [apply triple_record|intros []].
  case_match; [triple_ret|].
  eapply triple_bind; [by apply triple_or_raise|intros [[c path] directions]].
  destruct path as [|node path]; [triple_ret|].
  do 4 (eapply triple_bind; [apply triple_write|intros []]).
  assert (Hok : ∀ s',
    (∃ s3, (∃ s2, (∃ s1, (∃ s0,
       ((G → session_inv (build_graph_from_neo4j location_names connections) s0) ∧
        dijkstra (build_graph_from_neo4j location_names connections)
          (String a start_node) (String b end_node)
        = Some (c, node :: path, directions)) ∧
       s1 = set_state navigation_confirm s0) ∧
       s2 = set_path (node :: path) s1) ∧
       s3 = set_directions directions s2) ∧
       s' = set_current_step 0 s3) →
    session_inv (build_graph_from_neo4j location_names connections) s').
  { intros s' (s3 & (s2 & (s1 & (s0 & [_ Hd] & ->) & ->) & ->) & ->).
    by eapply started_session_inv. }
  eapply triple_bind; [apply triple_or_raise; auto|intros first_direction].
  eapply triple_bind; [apply triple_or_raise; intros ? [? _]; auto|
                       intros first_destination].
  apply triple_ret. intros ? [[? _] _]. auto.
Qed.

Section Preserved.
Variable cosine_similarity : string → string → Q.
Variable nlp : string → doc.
Variable location_names : list string.
Variable connections : list relationship.
Variable find_teacher_by_name : string → list teacher.

#[local] Abbreviation chat' :=
  (chat cosine_similarity nlp location_names connections find_teacher_by_name).
#[local] Abbreviation campus_graph :=
  (build_graph_from_neo4j location_names connections).

Lemma chat_inv (G : Prop) (data : request) :
  triple (default "default_user" (req_user_id data))
    (λ s, G → session_inv campus_graph s) (chat' data)
    (λ _ s, G → session_inv campus_graph s) (λ s, G → session_inv campus_graph s).
Proof.
  unfold chat.
  repeat first
    [ triple_step
    | (eapply triple_weaken;
       [apply (handle_navigation_inv G)|intros ?|done|done]) ].
  all: intros;
    repeat match goal with
      | H : _ ∧ _ |- _ => destruct H
      | H : ∃ _, _ |- _ => destruct H
      | H : _ = s_state _ |- _ => symmetry in H
      end;
    simplify_eq;
    eauto using idle_session_inv, offer_session_inv, selection_session_inv,
      advanced_session_inv.
Qed.

Lemma chat_updates_sender (data : request) (w : world) (I : session → Prop) :
  (∀ s, user_sessions w !! default "default_user" (req_user_id data) = Some s → I s) →
  I new_session →
  triple (default "default_user" (req_user_id data)) I (chat' data)
    (λ _ s, I s) I →
  ∃ s', user_sessions (chat' data w).2
        = <[default "default_user" (req_user_id data) := s']> (user_sessions w) ∧
        I s'.
Proof.
  set (user_id := default "default_user" (req_user_id data)).
  intros Hold Hnew Htriple.
  destruct (user_sessions w !! user_id) as [s|] eqn:Hs.
  - destruct (Htriple w s Hs (Hold s eq_refl)) as (s' & Hw' & Hpost).
    exists s'. split; [done|]. by destruct (chat _ _ _ _ _ _ _).1.
  - rewrite chat_new_user by done. fold user_id.
    destruct (Htriple (World (<[user_id := new_session]> (user_sessions w)) (calls w))
                new_session (lookup_stored _ _ _ _) Hnew) as (s' & Hw' & Hpost).
    exists s'. cbn [user_sessions] in Hw'. rewrite insert_insert_eq in Hw'.
    split; [done|]. by destruct (chat _ _ _ _ _ _ _).1.
Qed.

(** X7.  Whatever requests have been served since the start, every stored
    session satisfies the invariant of its dialog state: while a route is
    being confirmed the session holds a path, its instructions and a step
    index inside the path, and that path follows edges of the campus graph
    with exactly their instructions; a pending offer holds a cabin; a pending
    selection holds at least two candidates. *)
Theorem sessions_hold_routes (requests : list request) (user_id : string)
    (s : session) :
  user_sessions (serve chat' requests (World ∅ [])) !! user_id = Some s →
  session_inv campus_graph s.
Proof.
  assert (Hgen : ∀ w,
    (∀ u s, user_sessions w !! u = Some s → session_inv campus_graph s) →
    ∀ u s, user_sessions (serve chat' requests w) !! u = Some s →
           session_inv campus_graph s).
  { induction requests as [|data requests IH]; intros w Hw; [done|].
    cbn [serve fold_left]. apply IH. clear IH. intros u s'.
    destruct (chat_updates_sender data w (session_inv campus_graph))
      as (s1 & -> & Hs1).
    - intros s0 Hs0. by eapply Hw.
    - by split_and!; intros [=].
    - eapply triple_weaken; [apply (chat_inv True)|simpl; auto..].
    - destruct (decide (default "default_user" (req_user_id data) = u)) as [<-|Hne].
      + rewrite lookup_insert_eq. by intros [= <-].
      + rewrite lookup_insert_ne by done. apply Hw. }
  apply Hgen. intros u s0 Hs0. cbn [user_sessions] in Hs0.
  by rewrite lookup_empty in Hs0.
Qed.

End Preserved.

(** ** The dialog controller: one user at a time *)

Lemma local_ret {A} user_id (a : A) : local user_id (mret a).
Proof. by intros w1 w2 Hw. Qed.

Lemma local_or_raise {A} user_id e (o : option A) : local user_id (or_raise e o).
Proof. intros w1 w2 Hw. by destruct o. Qed.

Lemma local_read {A} user_id (h : session → A) : local user_id (session_read user_id h).
Proof.
  intros w1 w2 Hw. unfold session_read. rewrite Hw.
  destruct (user_sessions w2 !! user_id) eqn:Hs; cbn [fst snd]; by rewrite ?Hw, ?Hs.
Qed.

Lemma local_write user_id h : local user_id (session_write user_id h).
Proof.
  intros w1 w2 Hw. unfold session_write. rewrite Hw.
  destruct (user_sessions w2 !! user_id) eqn:Hs; cbn [fst snd];
    [|by rewrite ?Hw, ?Hs].
  split; [done|]. cbn [user_sessions]. by rewrite !lookup_insert_eq.
Qed.

Lemma local_ensure user_id : local user_id (ensure_session user_id).
Proof.
  intros w1 w2 Hw. unfold ensure_session. rewrite Hw.
  destruct (user_sessions w2 !! user_id) eqn:Hs; cbn [fst snd];
    [by rewrite ?Hw, ?Hs|].
  split; [done|]. cbn [user_sessions]. by rewrite !lookup_insert_eq.
Qed.

Lemma local_record user_id c : local user_id (record_call c).
Proof. by intros w1 w2 Hw. Qed.

Lemma local_bind {A B} user_id (m : M A) (f : A → M B) :
  local user_id m → (∀ a, local user_id (f a)) → local user_id (m ≫= f).
Proof.
  intros Hm Hf w1 w2 Hw. rewrite !run_bind.
  destruct (Hm w1 w2 Hw) as [Hr Hs].
  destruct (m w1) as [[a|e] w1'], (m w2) as [[a'|e'] w2']; simplify_eq/=; [|done].
  by apply Hf.
Qed.

(** Decomposes a handler into its operations. *)
Ltac local_steps :=
  repeat first
    [ apply local_ret | apply local_or_raise
    | apply local_read | apply local_write | apply local_ensure
    | apply local_record
    | (apply local_bind; [|intros ?])
    | case_match | case_decide ].

Lemma handle_navigation_local location_names connections d user_id :
  local user_id (handle_navigation location_names connections d user_id).
Proof. unfold handle_navigation. local_steps. Qed.

Lemma handle_navigation_moves location_names connections d user_id
    (P : session → Prop) :
  triple user_id P (handle_navigation location_names connections d user_id)
    (λ _ s', ∃ s, P s ∧ (s' = s ∨ s_state s' = navigation_confirm))
    (λ s', ∃ s, P s ∧ (s' = s ∨ s_state s' = navigation_confirm)).
Proof.
  unfold handle_navigation.
  repeat triple_step.
  all: intros;
    repeat match goal with
      | H : _ ∧ _ |- _ => destruct H
      | H : ∃ _, _ |- _ => destruct H
      end;
    simplify_eq; eauto.
Qed.

Section Isolation.
Variable cosine_similarity : string → string → Q.
Variable nlp : string → doc.
Variable location_names : list string.
Variable connections : list relationship.
Variable find_teacher_by_name : string → list teacher.

#[local] Abbreviation chat' :=
  (chat cosine_similarity nlp location_names connections find_teacher_by_name).

Lemma chat_local (data : request) :
  local (default "default_user" (req_user_id data)) (chat' data).
Proof.
  unfold chat.
  repeat first [ apply handle_navigation_local | progress local_steps ].
Qed.

Lemma chat_moves (data : request) (s0 : session) :
  triple (default "default_user" (req_user_id data)) (λ s, s = s0) (chat' data)
    (λ _ s', allowed (s_state s0) (s_state s') = true)
    (λ s', allowed (s_state s0) (s_state s') = true).
Proof.
  unfold chat.
  repeat first
    [ triple_step
    | (eapply triple_weaken;
       [apply handle_navigation_moves|intros ? Hpre; exact Hpre|intros ?|]) ].
  all: intros; cbv beta in *;
    repeat match goal with
      | H : _ ∧ _ |- _ => destruct H
      | H : ∃ _, _ |- _ => destruct H
      | H : _ ∨ _ |- _ => destruct H
      | H : _ = s_state _ |- _ => symmetry in H
      end;
    simplify_eq; cbn [s_state set_state set_current_step set_teacher_cabin
                      set_teachers set_path set_directions];
    repeat match goal with H : s_state _ = _ |- _ => rewrite H end;
    try done.
Qed.

(** X8.  One request moves the dialog state of its sender only along the
    arrows of the state machine: a route confirmation stays or ends in
    [idle]; a selection stays or becomes an offer; an offer stays, ends in
    [idle] or becomes a route confirmation; this holds for every store and
    every message, whether the request ends in a reply or in an exception. *)
Theorem chat_moves_allowed (data : request) (w : world) :
  let user_id := default "default_user" (req_user_id data) in
  allowed (state_of w user_id) (state_of (chat' data w).2 user_id) = true.
Proof.
  intros user_id. unfold state_of at 1.
  destruct (user_sessions w !! user_id) as [s|] eqn:Hs; [|done].
  destruct (chat_moves data s w s Hs eq_refl) as (s' & Hw' & Hpost).
  fold user_id in Hw'. unfold state_of. rewrite Hw', lookup_insert_eq.
  by destruct (chat _ _ _ _ _ _ _).1.
Qed.

(** X9.  Users are isolated from each other: the reply (or exception) to a
    request and the session it leaves to its sender are the same in any two
    stores that hold the same session for the sender, and the request leaves
    the session of every other user as it was. *)
Theorem chat_isolates_users (data : request) (w1 w2 : world) :
  let user_id := default "default_user" (req_user_id data) in
  user_sessions w1 !! user_id = user_sessions w2 !! user_id →
  (chat' data w1).1 = (chat' data w2).1 ∧
  user_sessions (chat' data w1).2 !! user_id
  = user_sessions (chat' data w2).2 !! user_id ∧
  ∀ other, other ≠ user_id →
    user_sessions (chat' data w1).2 !! other = user_sessions w1 !! other.
Proof.
  intros user_id Hw. destruct (chat_local data w1 w2 Hw) as [Hr Hs].
  split_and!; [done..|].
  apply (chat_keeps_sessions_ok cosine_similarity nlp location_names connections
           find_teacher_by_name data w1).
Qed.

End Isolation.

(** ** The dialog controller: where exceptions come from *)

Section TriplesExn.
Context {A : Type} (user_id : string).
Implicit Types (P : session → Prop) (Q : A → session → Prop)
  (E : exn → session → Prop).





End TriplesExn.










Section Exceptions.
Variable cosine_similarity : string → string → Q.
Variable nlp : string → doc.
Variable location_names : list string.
Variable connections : list relationship.
Variable find_teacher_by_name : string → list teacher.

#[local] Abbreviation chat' :=
  (chat cosine_similarity nlp location_names connections find_teacher_by_name).
#[local] Abbreviation campus_graph :=
  (build_graph_from_neo4j location_names connections).



End Exceptions.

(** ** The dialog controller: a navigation from start to arrival *)

Section Navigation.
Variable cosine_similarity : string → string → Q.
Variable nlp : string → doc.
Variable location_names : list string.
Variable connections : list relationship.
Variable find_teacher_by_name : string → list teacher.

#[local] Abbreviation chat' :=
  (chat cosine_similarity nlp location_names connections find_teacher_by_name).
#[local] Abbreviation handle_navigation' :=
  (handle_navigation location_names connections).
#[local] Abbreviation campus_graph :=
  (build_graph_from_neo4j location_names connections).

(** The session that a started navigation stores. *)
#[local] Abbreviation started path directions s :=
  (set_current_step 0 (set_directions directions (set_path path
     (set_state navigation_confirm s)))).

Lemma handle_navigation_started (d : doc) (user_id : string) (w : world)
    (s : session) (start_node end_node : string) :
  endpoints (tokens d) (location_entities d) = (Some start_node, Some end_node) →
  start_node ≠ EmptyString → end_node ≠ EmptyString →
  dict_mem start_node campus_graph = true →
  dict_mem end_node campus_graph = true →
  start_node ≠ end_node →
  reachable campus_graph start_node end_node →
  user_sessions w !! user_id = Some s →
  ∃ c path directions first_direction first_destination props,
    dijkstra campus_graph start_node end_node = Some (Finite c, path, directions) ∧
    directions !! 0%nat = Some first_direction ∧
    path !! 1%nat = Some first_destination ∧
    (first_destination, props) ∈ neighbors campus_graph start_node ∧
    first_direction = direction_of props ∧
    handle_navigation' d user_id w
    = (Ok ("Okay, starting navigation from " +:+ start_node +:+ " to " +:+
           end_node +:+ ". First, " +:+ first_direction +:+ " to reach " +:+
           first_destination +:+ ". Let me know when you're there."),
       World (<[user_id := started path directions s]> (user_sessions w))
         (calls w ++ [FetchGraph])).
Proof.
  intros He Hs Ht Hm1 Hm2 Hne Hreach Hsess.
  destruct (dijkstra_reachable_finite _ _ _ Hreach) as (c & path & directions & Hd).
  destruct (dijkstra_sound _ _ _ _ Hd) as [[=]|(c0 & p0 & d0 & [= <- <- <-] & Hw)].
  destruct (walk_shape _ _ _ _ _ _ Hw) as (Hlen & Hhead & _ & Hedges).
  destruct directions as [|first_direction directions].
  { inversion Hw; simplify_eq. by destruct dirs. }
  destruct (Hedges 0%nat first_direction eq_refl)
    as (u & first_destination & props & Hu & Hv & Hedge & ->).
  destruct path as [|node path]; [done|]. simplify_eq/=.
  exists c, (start_node :: path), (direction_of props :: directions),
    (direction_of props), first_destination, props.
  split_and!; [done..|].
  unfold handle_navigation. rewrite He.
  destruct start_node as [|a start_node]; [done|].
  destruct end_node as [|b end_node]; [done|].
  run. rewrite Hm1, Hm2. cbn [negb orb].
  erewrite run_or_raise by exact Hd. cbv beta iota.
  run. rewrite !stored_twice.
  erewrite run_or_raise by reflexivity.
  erewrite run_or_raise; [|by rewrite (index_nat _ 1)].
  done.
Qed.


Lemma chat_navigate (data : request) (w : world) (s : session) :
  let user_id := default "default_user" (req_user_id data) in
  let message := Py.strip (default "" (req_message data)) in
  user_sessions w !! user_id = Some s →
  s_state s = idle →
  get_intent cosine_similarity message = "navigate" →
  chat' data w
  = handle_navigation' (nlp message) user_id
      (World (user_sessions w) (calls w ++ [Classify message; Parse message])).
Proof.
  intros user_id message Hs Hst Hint.
  unfold chat. fold user_id message. run. rewrite Hst. run. rewrite Hint.
  rewrite !decide_False by done. rewrite decide_True by done.
  cbn [user_sessions calls]. by rewrite <- !app_assoc.
Qed.

Lemma chat_confirm_step (data : request) (w : world) (s : session)
    (path directions : list string) (current_step : Z)
    (direction_text next_node : string) :
  let user_id := default "default_user" (req_user_id data) in
  let message := Py.strip (default "" (req_message data)) in
  user_sessions w !! user_id = Some s →
  s_state s = navigation_confirm →
  s_path s = Some path → s_directions s = Some directions →
  s_current_step s = Some current_step →
  affirms_progress message = true →
  current_step < Z.of_nat (length path) - 1 →
  Py.index path (current_step + 1) = Some next_node →
  Py.index directions current_step = Some direction_text →
  chat' data w
  = (Ok ("Great! Now, " +:+ direction_text +:+ " to reach " +:+ next_node +:+
         ". Let me know when you've reached."),
     World (<[user_id := set_current_step (current_step + 1) s]> (user_sessions w))
       (calls w)).
Proof.
  intros user_id message Hs Hst Hp Hd Hk Haff Hlt Hnn Hdt.
  unfold chat. fold user_id message. run. rewrite Hst, Haff. run.
  rewrite Hp, Hd, Hk. simpl default. rewrite decide_True by done.
  erewrite run_or_raise by done. erewrite run_or_raise by done. run.
  erewrite run_or_raise by done. run. done.
Qed.


(** X12.  The first confirmation repeats the first step.  When a navigation
    request of an idle user starts a navigation, the reply names the first
    instruction and the node it leads to; the user's next affirming message
    is answered with the same instruction and the same node, and only moves
    the step index from 0 to 1. *)
Theorem first_confirmation_repeats_first_step (w : world) (data data' : request)
    (s : session) (start_node end_node : string) :
  let user_id := default "default_user" (req_user_id data) in
  let message := Py.strip (default "" (req_message data)) in
  let message' := Py.strip (default "" (req_message data')) in
  default "default_user" (req_user_id data') = user_id →
  user_sessions w !! user_id = Some s →
  s_state s = idle →
  get_intent cosine_similarity message = "navigate" →
  endpoints (tokens (nlp message)) (location_entities (nlp message))
  = (Some start_node, Some end_node) →
  start_node ≠ EmptyString → end_node ≠ EmptyString →
  dict_mem start_node campus_graph = true →
  dict_mem end_node campus_graph = true →
  start_node ≠ end_node →
  reachable campus_graph start_node end_node →
  affirms_progress message' = true →
  ∃ first_direction first_destination path directions w1,
    chat' data w
    = (Ok ("Okay, starting navigation from " +:+ start_node +:+ " to " +:+
           end_node +:+ ". First, " +:+ first_direction +:+ " to reach " +:+
           first_destination +:+ ". Let me know when you're there."), w1) ∧
    user_sessions w1 !! user_id = Some (started path directions s) ∧
    chat' data' w1
    = (Ok ("Great! Now, " +:+ first_direction +:+ " to reach " +:+
           first_destination +:+ ". Let me know when you've reached."),
       World (<[user_id := set_current_step 1 (started path directions s)]>
                (user_sessions w))
         (calls w1)).
Proof.
  intros user_id message message' Hsame Hs Hst Hint He Hn1 Hn2 Hm1 Hm2 Hne Hreach Haff.
  rewrite (chat_navigate data w s) by done. fold user_id message.
  destruct (handle_navigation_started (nlp message) user_id
              (World (user_sessions w) (calls w ++ [Classify message; Parse message]))
              s start_node end_node)
    as (c & path & directions & first_direction & first_destination & props &
        Hd & Hfirst & Hsecond & _ & _ & ->); [done..|].
  exists first_direction, first_destination, path, directions. eexists.
  split; [done|]. split; [apply lookup_stored|].
  destruct (dijkstra_sound _ _ _ _ Hd) as [[=]|(c0 & p0 & d0 & [= <- <- <-] & Hw)].
  destruct (walk_shape _ _ _ _ _ _ Hw) as (Hlen & _).
  erewrite (chat_confirm_step data' _ _ path directions 0);
    [|rewrite Hsame; apply lookup_stored|done..| | |].
  - rewrite Hsame. cbn [user_sessions calls]. by rewrite insert_insert_eq.
  - rewrite Hlen. destruct directions; [done|]. simpl. lia.
  - by rewrite (index_nat _ 1).
  - by rewrite (index_nat _ 0).
Qed.


Lemma find_index_last (x : string) (l : list string) :
  x ∉ l → Py.find_index x (l ++ [x]) = Some (length l).
Proof.
  induction l as [|y l IH]; intros Hx; simpl.
  - by rewrite decide_True.
  - apply not_elem_of_cons in Hx as [Hne Hx].
    rewrite decide_False by done. by rewrite IH.
Qed.

Lemma index_past_end {A} (l : list A) (i : Z) :
  Z.of_nat (length l) ≤ i → Py.index l i = None.
Proof.
  intros Hi. unfold Py.index. rewrite decide_True by lia.
  apply lookup_ge_None_2. lia.
Qed.

(** X14.  A keyword at the end of the text leaves the request unresolved.
    When the tokens contain both "from" and "to" and the first occurrence of
    one of them is the last token, the handler catches the failed read of
    the token after it and asks for the two endpoints; it does so whatever
    locations the entity recognizer found, and without fetching the graph
    or touching a session. *)
Theorem trailing_keyword_asks_again (d : doc) (user_id : string) (w : world)
    (before : list string) (keyword other : string) :
  tokens d = before ++ [keyword] →
  keyword ∉ before → other ∈ before →
  (keyword = "from" ∧ other = "to") ∨ (keyword = "to" ∧ other = "from") →
  handle_navigation' d user_id w
  = (Ok ("I can help with navigation. Please tell me where you are starting " +:+
         "from and where you want to go, for example: " +:+
         "'Navigate from AB1-101 to AB2-205'."), w).
Proof.
  intros Htokens Hlast Hother Hkeys.
  apply handle_navigation_unresolved. intros (a & start_node & b & end_node & He).
  unfold endpoints, Py.mem in He. rewrite Htokens in He.
  destruct Hkeys as [[-> ->]|[-> ->]].
  - rewrite (proj2 (bool_decide_eq_true _)) in He
      by (apply elem_of_app; right; left).
    rewrite (proj2 (bool_decide_eq_true _)) in He by (by apply elem_of_app; left).
    cbn [andb] in He. rewrite find_index_last in He by done.
    destruct (Py.find_index "to" _); [|done].
    by rewrite index_past_end in He by (rewrite length_app; simpl; lia).
  - rewrite (proj2 (bool_decide_eq_true _)) in He by (by apply elem_of_app; left).
    rewrite (proj2 (bool_decide_eq_true _)) in He
      by (apply elem_of_app; right; left).
    cbn [andb] in He. rewrite (find_index_last "to") in He by done.
    destruct (Py.find_index "from" _); [|done].
    destruct (Py.index _ (Z.of_nat n + 1)); [|done].
    by rewrite index_past_end in He by (rewrite length_app; simpl; lia).
Qed.

End Navigation.

(** ** The dialog controller: questions of an idle user *)

Section Idle.
Variable cosine_similarity : string → string → Q.
Variable nlp : string → doc.
Variable location_names : list string.
Variable connections : list relationship.
Variable find_teacher_by_name : string → list teacher.

#[local] Abbreviation chat' :=
  (chat cosine_similarity nlp location_names connections find_teacher_by_name).





(** X17.  For an idle user, a message that is classified neither as a
    navigation request nor as a teacher question gets a reply that depends
    on the intent alone (not on the wording, the user, or the store), and
    changes no session: two such requests with the same intent get the same
    reply. *)
Theorem canned_reply_by_intent (data1 data2 : request) (w1 w2 : world)
    (s1 s2 : session) :
  let user1 := default "default_user" (req_user_id data1) in
  let user2 := default "default_user" (req_user_id data2) in
  let message1 := Py.strip (default "" (req_message data1)) in
  let message2 := Py.strip (default "" (req_message data2)) in
  user_sessions w1 !! user1 = Some s1 → s_state s1 = idle →
  user_sessions w2 !! user2 = Some s2 → s_state s2 = idle →
  get_intent cosine_similarity message1 = get_intent cosine_similarity message2 →
  get_intent cosine_similarity message1 ≠ "navigate" →
  get_intent cosine_similarity message1 ≠ "teacher_info" →
  ∃ reply,
    chat' data1 w1
    = (Ok reply, World (user_sessions w1)
                   (calls w1 ++ [Classify message1; Parse message1])) ∧
    chat' data2 w2
    = (Ok reply, World (user_sessions w2)
                   (calls w2 ++ [Classify message2; Parse message2])).
Proof.
  intros user1 user2 message1 message2 Hs1 Hst1 Hs2 Hst2 Hint Hnav Hteach.
  unfold chat. fold user1 user2 message1 message2.
  run. rewrite Hst1, Hst2. run. rewrite <- Hint.
  repeat case_decide; try done;
    eexists; cbn [user_sessions calls]; rewrite <- !app_assoc; done.
Qed.

End Idle.

(** ** The main results on the sample data *)

Lemma sample_graph_nonneg :
  nonneg_weights (build_graph_from_neo4j sample_locations sample_connections).
Proof. apply nonneg_weightsb_sound. vm_compute. reflexivity. Qed.

Lemma sample_similarity_le_1 (a b : string) : (sample_similarity a b <= 1)%Q.
Proof. unfold sample_similarity. by destruct (Py.contains b a). Qed.



Lemma unreachable_end_node_witness :
  dijkstra (build_graph_from_neo4j sample_locations sample_connections)
    "AB1_303" "PARKING_LOT"
  = Some (Infinity, [], []) ∧
  ∃ w',
    handle_navigation sample_locations sample_connections
      (sample_nlp "navigate from AB1_303 to PARKING_LOT") "u" (world_with new_session)
    = (Ok ("I'm sorry, I couldn't find a path from " +:+ "AB1_303" +:+
           " to " +:+ "PARKING_LOT" +:+ "."), w') ∧
    user_sessions w' = user_sessions (world_with new_session).
Proof.
  assert (Hno : ¬ reachable (build_graph_from_neo4j sample_locations sample_connections)
                    "AB1_303" "PARKING_LOT").
  { apply (dijkstra_infinite_unreachable _ _ _ [] []); [apply sample_graph_nonneg|].
    vm_compute. reflexivity. }
  destruct (unreachable_end_node sample_locations sample_connections)
    as [Hrouter Hhandler].
  split.
  - apply Hrouter, Hno.
  - apply Hhandler; [vm_compute; reflexivity|done|done| | |exact Hno];
      vm_compute; reflexivity.
Defined.

Lemma navigation_to_same_node_raises_witness :
  sample_chat (says "navigate from AB1_303 to AB1_303") (world_with new_session)
  = (Raise IndexError,
     World (<["u" := set_current_step 0 (set_directions [] (set_path ["AB1_303"]
                       (set_state navigation_confirm new_session)))]>
              {[ "u" := new_session ]})
       ([] ++ [Classify "navigate from AB1_303 to AB1_303";
               Parse "navigate from AB1_303 to AB1_303"; FetchGraph])).
Proof.
  apply (navigation_to_same_node_raises sample_similarity sample_nlp sample_locations
           sample_connections sample_directory (world_with new_session)
           (says "navigate from AB1_303 to AB1_303") new_session "AB1_303");
    [reflexivity|reflexivity|vm_compute; reflexivity|vm_compute; reflexivity|done
    |vm_compute; reflexivity].
Defined.


Lemma classification_only_when_idle_witness :
  ((∃ l, calls (sample_chat (says "hello") (world_with nav_session)).2
         = calls (world_with nav_session) ++ l ∧
         Forall (λ c, is_classify c = false) l) ∧
   ∀ similarity',
     chat similarity' sample_nlp sample_locations sample_connections
       sample_directory (says "hello") (world_with nav_session)
     = sample_chat (says "hello") (world_with nav_session)) ∧
  ∃ l, calls (sample_chat (says "hello") (world_with new_session)).2
       = calls (world_with new_session) ++ Classify (Py.strip "hello") :: l ∧
       Forall (λ c, is_classify c = false) l.
Proof.
  split.
  - apply (classification_only_when_idle sample_similarity sample_nlp sample_locations
             sample_connections sample_directory (world_with nav_session)
             (says "hello")).
    vm_compute. discriminate.
  - apply (classification_only_when_idle sample_similarity sample_nlp sample_locations
             sample_connections sample_directory (world_with new_session)
             (says "hello")).
    vm_compute. reflexivity.
Defined.

Lemma get_intent_decision_witness :
  get_intent sample_similarity "zzz" = "unknown" ∧
  get_intent sample_similarity "Hello there" = "greeting".
Proof.
  split.
  - apply (get_intent_decision sample_similarity "zzz").
    intros intent phrase Hin. apply list_elem_of_In in Hin. vm_compute in Hin.
    repeat (destruct Hin as [[= <- <-]|Hin]; [vm_compute; discriminate|]).
    destruct Hin.
  - apply (proj2 (get_intent_decision sample_similarity "Hello there")
             0%nat "greeting" "hello").
    + reflexivity.
    + vm_compute. reflexivity.
    + intros j intent' phrase' _.
      eapply Qle_trans; [apply sample_similarity_le_1|]. vm_compute. discriminate.
    + intros j intent' phrase' Hj. lia.
Defined.

(** ** Further results on the sample data *)

Lemma sample_lift_reachable :
  reachable (build_graph_from_neo4j sample_locations sample_connections)
    "AB1_303" "AB1_LIFT".
Proof.
  apply reachable_walk.
  destruct (dijkstra_sound
              (build_graph_from_neo4j sample_locations sample_connections)
              "AB1_303" "AB1_LIFT"
              (Finite 13, ["AB1_303"; "AB1_310"; "AB1_LIFT"],
               ["continue straight"; "turn left towards the lift"]))
    as [[=]|(c & path & dirs & _ & Hw)]; [vm_compute; reflexivity|].
  by exists path, c, dirs.
Qed.

Lemma sessions_hold_routes_witness :
  session_inv (build_graph_from_neo4j sample_locations sample_connections)
    (Session navigation_confirm (Some ["AB1_303"; "AB1_310"; "AB1_LIFT"])
       (Some ["continue straight"; "turn left towards the lift"]) (Some 0)
       None None).
Proof.
  apply (sessions_hold_routes sample_similarity sample_nlp sample_locations
           sample_connections sample_directory
           [says "navigate from AB1_303 to AB1_LIFT"] "u").
  vm_compute. reflexivity.
Defined.

Lemma chat_isolates_users_witness :
  (sample_chat (says "hello") (world_with new_session)).1
  = (sample_chat (says "hello") two_user_world).1 ∧
  user_sessions (sample_chat (says "hello") (world_with new_session)).2 !! "u"
  = user_sessions (sample_chat (says "hello") two_user_world).2 !! "u" ∧
  ∀ other, other ≠ "u" →
    user_sessions (sample_chat (says "hello") (world_with new_session)).2 !! other
    = user_sessions (world_with new_session) !! other.
Proof.
  apply (chat_isolates_users sample_similarity sample_nlp sample_locations
           sample_connections sample_directory (says "hello")
           (world_with new_session) two_user_world).
  vm_compute. reflexivity.
Defined.



Lemma first_confirmation_repeats_first_step_witness :
  ∃ first_direction first_destination w1 w2,
    sample_chat (says "navigate from AB1_303 to AB1_LIFT") (world_with new_session)
    = (Ok ("Okay, starting navigation from " +:+ "AB1_303" +:+ " to " +:+
           "AB1_LIFT" +:+ ". First, " +:+ first_direction +:+ " to reach " +:+
           first_destination +:+ ". Let me know when you're there."), w1) ∧
    sample_chat (says "yes") w1
    = (Ok ("Great! Now, " +:+ first_direction +:+ " to reach " +:+
           first_destination +:+ ". Let me know when you've reached."), w2).
Proof.
  destruct (first_confirmation_repeats_first_step sample_similarity sample_nlp
              sample_locations sample_connections sample_directory
              (world_with new_session)
              (says "navigate from AB1_303 to AB1_LIFT") (says "yes")
              new_session "AB1_303" "AB1_LIFT")
    as (first_direction & first_destination & path & directions & w1 &
        Hstart & _ & Hnext).
  - reflexivity.
  - reflexivity.
  - reflexivity.
  - vm_compute. reflexivity.
  - vm_compute. reflexivity.
  - discriminate.
  - discriminate.
  - vm_compute. reflexivity.
  - vm_compute. reflexivity.
  - discriminate.
  - apply sample_lift_reachable.
  - vm_compute. reflexivity.
  - eexists first_direction, first_destination, w1, _. split; [exact Hstart|exact Hnext].
Defined.




Lemma canned_reply_by_intent_witness :
  ∃ reply,
    sample_chat (says "hello") (world_with new_session)
    = (Ok reply,
       World (user_sessions (world_with new_session))
         (calls (world_with new_session) ++
          [Classify (Py.strip "hello"); Parse (Py.strip "hello")])) ∧
    sample_chat (says "hey you") two_user_world
    = (Ok reply,
       World (user_sessions two_user_world)
         (calls two_user_world ++
          [Classify (Py.strip "hey you"); Parse (Py.strip "hey you")])).
Proof.
  apply (canned_reply_by_intent sample_similarity sample_nlp sample_locations
           sample_connections sample_directory (says "hello")
           (says "hey you") (world_with new_session) two_user_world
           new_session new_session).
  - reflexivity.
  - reflexivity.
  - vm_compute. reflexivity.
  - reflexivity.
  - vm_compute. reflexivity.
  - vm_compute. discriminate.
  - vm_compute. discriminate.
Defined.

Lemma trailing_keyword_asks_again_witness :
  handle_navigation sample_locations sample_connections
    (sample_nlp_with [Entity "canteen" "FAC"; Entity "library" "FAC"]
       "from the canteen to") "u" (world_with new_session)
  = (Ok ("I can help with navigation. Please tell me where you are starting " +:+
         "from and where you want to go, for example: " +:+
         "'Navigate from AB1-101 to AB2-205'."), world_with new_session).
Proof.
  apply (trailing_keyword_asks_again sample_locations sample_connections
           (sample_nlp_with [Entity "canteen" "FAC"; Entity "library" "FAC"]
              "from the canteen to") "u" (world_with new_session)
           ["from"; "the"; "canteen"] "to" "from").
  - reflexivity.
  - intros Hin. apply list_elem_of_In in Hin. vm_compute in Hin.
    repeat (destruct Hin as [[=]|Hin]). destruct Hin.
  - left.
  - right. split; reflexivity.
Defined.
